(** * Inbox Review UI: a shallow embedding of [App.tsx]

    The repository holds one React component in two revisions: the earlier one
    (the plain page) and the later one (the styled page, [src/App.tsx]).  This
    development embeds the component state, the event handlers and the text
    clean-up of both revisions, and proves the properties listed in the
    specification against them.

    Conventions of the embedding.
    - A JavaScript string is its sequence of UTF-16 code units.
    - A handler is a closure over the values of the render that created it; it
      is a function of that snapshot and runs in a monad threading the live
      component state, the log of requests and the pending timers, with
      JavaScript exceptions as the error outcome.
    - [await] is sequencing: one handler runs from its invocation to the
      settlement of its promise, with no other event in between.
    - The external service is an arbitrary function from the position of a
      request in the log and the request itself to what [fetch] yields. *)

From Stdlib Require Import List NArith ZArith Bool Ascii Lia Permutation.
From Stdlib Require String.
From Equations Require Import Equations.
Import ListNotations.
Import String.StringSyntax.
Local Open Scope string_scope.
Local Open Scope list_scope.

(** ** JavaScript strings *)

Definition char16 : Type := N.
Definition jsstring : Type := list char16.

(** A string literal of the source (all literals of the component that matter
    here are ASCII). *)
Definition js (s : String.string) : jsstring :=
  map N_of_ascii (String.list_ascii_of_string s).

(** [a === b] on strings: the same code units in the same order. *)
Fixpoint jsstring_eqb (a b : jsstring) : bool :=
  match a, b with
  | [], [] => true
  | x :: a', y :: b' => N.eqb x y && jsstring_eqb a' b'
  | _, _ => false
  end.

Definition LF : char16 := 10%N.
Definition TAB : char16 := 9%N.
Definition SP : char16 := 32%N.

(** The class [\n] and the class [[ \t]] of the two regular expressions. *)
Definition is_lf (c : char16) : bool := N.eqb c LF.
Definition is_sp_tab (c : char16) : bool := N.eqb c SP || N.eqb c TAB.

(** What [String.prototype.trim] strips: ECMAScript WhiteSpace (TAB, VT, FF,
    SP, NBSP, ZWNBSP and the other space separators) and LineTerminator
    (LF, CR, LS, PS). *)
Definition is_js_space (c : char16) : bool :=
  (N.leb 9 c && N.leb c 13) || N.eqb c 32 || N.eqb c 160 || N.eqb c 5760
  || (N.leb 8192 c && N.leb c 8202) || N.eqb c 8232 || N.eqb c 8233
  || N.eqb c 8239 || N.eqb c 8287 || N.eqb c 12288 || N.eqb c 65279.

Section Scan.
Variable cls : char16 -> bool.

(** The longest prefix of [s] inside the class, and what follows it. *)
Fixpoint take_while (s : jsstring) : jsstring :=
  match s with
  | c :: s' => if cls c then c :: take_while s' else []
  | [] => []
  end.

Fixpoint drop_while (s : jsstring) : jsstring :=
  match s with
  | c :: s' => if cls c then drop_while s' else s
  | [] => []
  end.

(** A greedy match of [[cls]{lo,}] anchored at the start of [s]: the length
    of the longest run, when it reaches [lo]. Nothing follows the
    quantifier in the pattern, so the matcher never backtracks. *)
Definition match_at (lo : nat) (s : jsstring) : option nat :=
  let n := length (take_while s) in
  if Nat.leb lo n then Some n else None.
End Scan.

(** [s.replace(/[cls]{lo,}/g, r)] for a replacement [r] without [$]: scan
    from the left; where the pattern matches, emit [r] and resume after the
    match; elsewhere copy one code unit and advance.  An empty match (only
    possible for [lo = 0]) emits [r] and then copies the code unit. *)
Equations? replace_all (cls : char16 -> bool) (lo : nat) (r s : jsstring)
  : jsstring by wf (length s) lt :=
  replace_all cls lo r [] := if Nat.eqb lo 0 then r else [];
  replace_all cls lo r (c :: s') with match_at cls lo (c :: s') := {
    | Some (S n) := r ++ replace_all cls lo r (skipn n s');
    | Some 0 := r ++ c :: replace_all cls lo r s';
    | None := c :: replace_all cls lo r s' }.
Proof.
  all: simpl; try lia.
  rewrite length_skipn. lia.
Qed.

(** The one-character string ["\n"] of the source. *)
Definition newline : String.string := String.String "010"%char String.EmptyString.

(** [s.trim()] *)
Definition trim (s : jsstring) : jsstring :=
  rev (drop_while is_js_space (rev (drop_while is_js_space s))).

(** The chain of [cleanFormatting]:
    [rawText.replace(/\n{2,}/g, "\n").replace(/[ \t]+/g, " ").trim()]. *)
Definition cleaned (rawText : jsstring) : jsstring :=
  trim (replace_all is_sp_tab 1 (js " ")
          (replace_all is_lf 2 (js newline) rawText)).

(** ** Data model *)

(** [type EmailItem]; an optional field is an [option]. Identifiers are the
    integers the service assigns. *)
Module EmailItem.
Record t : Type := Build {
  id : Z;
  subject : option jsstring;
  from : option jsstring;
  content : jsstring;
  summary : jsstring;
  urgency : jsstring;
  intent : option jsstring;
  reason : jsstring;
  actions : option (list jsstring) }.
End EmailItem.

(** [type SentItem] *)
Module SentItem.
Record t : Type := Build {
  email_id : Z;
  intent : jsstring;
  draft : jsstring;
  status : jsstring;
  sent_at : jsstring }.
End SentItem.

(** [type FollowUp] *)
Module FollowUp.
Record t : Type := Build {
  normal_emails_count : Z;
  suggested_time : jsstring;
  message : jsstring }.
End FollowUp.

(** The component state: one field per [useState] of [App]. The last two
    exist in the later revision only; the earlier revision never reads or
    writes them. *)
Record State : Type := Build_State {
  rawText : jsstring;
  emails : list EmailItem.t;
  loading : bool;
  error : option jsstring;
  modalOpen : bool;
  approveStatus : option jsstring;
  modalDraft : jsstring;
  modalEmailId : option Z;
  modalLoading : bool;
  followUp : option FollowUp.t;
  sentLog : list SentItem.t;
  sentLogOpen : bool;
  sentLogLoading : bool;
  sentJustNow : bool;
  lastAnalyzedText : jsstring;
  analyzeHover : bool }.

(** The state of a freshly mounted component. *)
Definition initial_state : State :=
  {| rawText := []; emails := []; loading := false; error := None;
     modalOpen := false; approveStatus := None; modalDraft := [];
     modalEmailId := None; modalLoading := false; followUp := None;
     sentLog := []; sentLogOpen := false; sentLogLoading := false;
     sentJustNow := false; lastAnalyzedText := []; analyzeHover := false |}.

(** Field updates, one per state setter. *)

Definition with_rawText (v : jsstring) (s : State) : State :=
  {| rawText := v; emails := emails s; loading := loading s; error := error s;
     modalOpen := modalOpen s; approveStatus := approveStatus s;
     modalDraft := modalDraft s; modalEmailId := modalEmailId s;
     modalLoading := modalLoading s; followUp := followUp s;
     sentLog := sentLog s; sentLogOpen := sentLogOpen s;
     sentLogLoading := sentLogLoading s; sentJustNow := sentJustNow s;
     lastAnalyzedText := lastAnalyzedText s; analyzeHover := analyzeHover s |}.

Definition with_emails (v : list EmailItem.t) (s : State) : State :=
  {| rawText := rawText s; emails := v; loading := loading s; error := error s;
     modalOpen := modalOpen s; approveStatus := approveStatus s;
     modalDraft := modalDraft s; modalEmailId := modalEmailId s;
     modalLoading := modalLoading s; followUp := followUp s;
     sentLog := sentLog s; sentLogOpen := sentLogOpen s;
     sentLogLoading := sentLogLoading s; sentJustNow := sentJustNow s;
     lastAnalyzedText := lastAnalyzedText s; analyzeHover := analyzeHover s |}.

Definition with_loading (v : bool) (s : State) : State :=
  {| rawText := rawText s; emails := emails s; loading := v; error := error s;
     modalOpen := modalOpen s; approveStatus := approveStatus s;
     modalDraft := modalDraft s; modalEmailId := modalEmailId s;
     modalLoading := modalLoading s; followUp := followUp s;
     sentLog := sentLog s; sentLogOpen := sentLogOpen s;
     sentLogLoading := sentLogLoading s; sentJustNow := sentJustNow s;
     lastAnalyzedText := lastAnalyzedText s; analyzeHover := analyzeHover s |}.

Definition with_error (v : option jsstring) (s : State) : State :=
  {| rawText := rawText s; emails := emails s; loading := loading s;
     error := v; modalOpen := modalOpen s; approveStatus := approveStatus s;
     modalDraft := modalDraft s; modalEmailId := modalEmailId s;
     modalLoading := modalLoading s; followUp := followUp s;
     sentLog := sentLog s; sentLogOpen := sentLogOpen s;
     sentLogLoading := sentLogLoading s; sentJustNow := sentJustNow s;
     lastAnalyzedText := lastAnalyzedText s; analyzeHover := analyzeHover s |}.

Definition with_modalOpen (v : bool) (s : State) : State :=
  {| rawText := rawText s; emails := emails s; loading := loading s;
     error := error s; modalOpen := v; approveStatus := approveStatus s;
     modalDraft := modalDraft s; modalEmailId := modalEmailId s;
     modalLoading := modalLoading s; followUp := followUp s;
     sentLog := sentLog s; sentLogOpen := sentLogOpen s;
     sentLogLoading := sentLogLoading s; sentJustNow := sentJustNow s;
     lastAnalyzedText := lastAnalyzedText s; analyzeHover := analyzeHover s |}.

Definition with_approveStatus (v : option jsstring) (s : State) : State :=
  {| rawText := rawText s; emails := emails s; loading := loading s;
     error := error s; modalOpen := modalOpen s; approveStatus := v;
     modalDraft := modalDraft s; modalEmailId := modalEmailId s;
     modalLoading := modalLoading s; followUp := followUp s;
     sentLog := sentLog s; sentLogOpen := sentLogOpen s;
     sentLogLoading := sentLogLoading s; sentJustNow := sentJustNow s;
     lastAnalyzedText := lastAnalyzedText s; analyzeHover := analyzeHover s |}.

Definition with_modalDraft (v : jsstring) (s : State) : State :=
  {| rawText := rawText s; emails := emails s; loading := loading s;
     error := error s; modalOpen := modalOpen s;
     approveStatus := approveStatus s; modalDraft := v;
     modalEmailId := modalEmailId s; modalLoading := modalLoading s;
     followUp := followUp s; sentLog := sentLog s;
     sentLogOpen := sentLogOpen s; sentLogLoading := sentLogLoading s;
     sentJustNow := sentJustNow s; lastAnalyzedText := lastAnalyzedText s;
     analyzeHover := analyzeHover s |}.

Definition with_modalEmailId (v : option Z) (s : State) : State :=
  {| rawText := rawText s; emails := emails s; loading := loading s;
     error := error s; modalOpen := modalOpen s;
     approveStatus := approveStatus s; modalDraft := modalDraft s;
     modalEmailId := v; modalLoading := modalLoading s; followUp := followUp s;
     sentLog := sentLog s; sentLogOpen := sentLogOpen s;
     sentLogLoading := sentLogLoading s; sentJustNow := sentJustNow s;
     lastAnalyzedText := lastAnalyzedText s; analyzeHover := analyzeHover s |}.

Definition with_modalLoading (v : bool) (s : State) : State :=
  {| rawText := rawText s; emails := emails s; loading := loading s;
     error := error s; modalOpen := modalOpen s;
     approveStatus := approveStatus s; modalDraft := modalDraft s;
     modalEmailId := modalEmailId s; modalLoading := v; followUp := followUp s;
     sentLog := sentLog s; sentLogOpen := sentLogOpen s;
     sentLogLoading := sentLogLoading s; sentJustNow := sentJustNow s;
     lastAnalyzedText := lastAnalyzedText s; analyzeHover := analyzeHover s |}.

Definition with_followUp (v : option FollowUp.t) (s : State) : State :=
  {| rawText := rawText s; emails := emails s; loading := loading s;
     error := error s; modalOpen := modalOpen s;
     approveStatus := approveStatus s; modalDraft := modalDraft s;
     modalEmailId := modalEmailId s; modalLoading := modalLoading s;
     followUp := v; sentLog := sentLog s; sentLogOpen := sentLogOpen s;
     sentLogLoading := sentLogLoading s; sentJustNow := sentJustNow s;
     lastAnalyzedText := lastAnalyzedText s; analyzeHover := analyzeHover s |}.

Definition with_sentLog (v : list SentItem.t) (s : State) : State :=
  {| rawText := rawText s; emails := emails s; loading := loading s;
     error := error s; modalOpen := modalOpen s;
     approveStatus := approveStatus s; modalDraft := modalDraft s;
     modalEmailId := modalEmailId s; modalLoading := modalLoading s;
     followUp := followUp s; sentLog := v; sentLogOpen := sentLogOpen s;
     sentLogLoading := sentLogLoading s; sentJustNow := sentJustNow s;
     lastAnalyzedText := lastAnalyzedText s; analyzeHover := analyzeHover s |}.

Definition with_sentLogOpen (v : bool) (s : State) : State :=
  {| rawText := rawText s; emails := emails s; loading := loading s;
     error := error s; modalOpen := modalOpen s;
     approveStatus := approveStatus s; modalDraft := modalDraft s;
     modalEmailId := modalEmailId s; modalLoading := modalLoading s;
     followUp := followUp s; sentLog := sentLog s; sentLogOpen := v;
     sentLogLoading := sentLogLoading s; sentJustNow := sentJustNow s;
     lastAnalyzedText := lastAnalyzedText s; analyzeHover := analyzeHover s |}.

Definition with_sentLogLoading (v : bool) (s : State) : State :=
  {| rawText := rawText s; emails := emails s; loading := loading s;
     error := error s; modalOpen := modalOpen s;
     approveStatus := approveStatus s; modalDraft := modalDraft s;
     modalEmailId := modalEmailId s; modalLoading := modalLoading s;
     followUp := followUp s; sentLog := sentLog s;
     sentLogOpen := sentLogOpen s; sentLogLoading := v;
     sentJustNow := sentJustNow s; lastAnalyzedText := lastAnalyzedText s;
     analyzeHover := analyzeHover s |}.

Definition with_sentJustNow (v : bool) (s : State) : State :=
  {| rawText := rawText s; emails := emails s; loading := loading s;
     error := error s; modalOpen := modalOpen s;
     approveStatus := approveStatus s; modalDraft := modalDraft s;
     modalEmailId := modalEmailId s; modalLoading := modalLoading s;
     followUp := followUp s; sentLog := sentLog s;
     sentLogOpen := sentLogOpen s; sentLogLoading := sentLogLoading s;
     sentJustNow := v; lastAnalyzedText := lastAnalyzedText s;
     analyzeHover := analyzeHover s |}.

Definition with_lastAnalyzedText (v : jsstring) (s : State) : State :=
  {| rawText := rawText s; emails := emails s; loading := loading s;
     error := error s; modalOpen := modalOpen s;
     approveStatus := approveStatus s; modalDraft := modalDraft s;
     modalEmailId := modalEmailId s; modalLoading := modalLoading s;
     followUp := followUp s; sentLog := sentLog s;
     sentLogOpen := sentLogOpen s; sentLogLoading := sentLogLoading s;
     sentJustNow := sentJustNow s; lastAnalyzedText := v;
     analyzeHover := analyzeHover s |}.

Definition with_analyzeHover (v : bool) (s : State) : State :=
  {| rawText := rawText s; emails := emails s; loading := loading s;
     error := error s; modalOpen := modalOpen s;
     approveStatus := approveStatus s; modalDraft := modalDraft s;
     modalEmailId := modalEmailId s; modalLoading := modalLoading s;
     followUp := followUp s; sentLog := sentLog s;
     sentLogOpen := sentLogOpen s; sentLogLoading := sentLogLoading s;
     sentJustNow := sentJustNow s; lastAnalyzedText := lastAnalyzedText s;
     analyzeHover := v |}.


(** ** The external service *)

(** The requests the component issues: method and path, with the fields of the
    JSON body. *)
Inductive Request : Type :=
| GET_emails_demo
| POST_emails_analyze (raw_text : jsstring)
| GET_emails_sent
| POST_emails_sent_clear
| POST_emails_reply_suggest (email_content urgency : jsstring)
                            (intent : option jsstring)
| POST_emails_reply_approve (email_id : Z) (intent draft : jsstring).

(** The object a response body parses to ([data] in the source). The
    component reads [data] untyped; the fields it reads without a [??] or a
    truthiness guard ([raw_text], [emails]) are taken as present with the type
    the state gives them, the guarded ones are optional ([None] stands for
    an absent or [null] field).  A body that parses but lacks [raw_text] or
    [emails] (an error object, say) makes the component store [undefined];
    such answers, and the states they lead to, are outside this model: every
    statement below about a parsed body is about a body of this shape. *)
Module Data.
Record t : Type := Build {
  raw_text : jsstring;
  emails : list EmailItem.t;
  follow_up : option FollowUp.t;
  items : option (list SentItem.t);
  draft : option jsstring;
  message : option jsstring }.
End Data.

(** A [Response]: the [ok] flag of its status and its body, [None] when
    [res.json()] rejects on it. *)
Record Response : Type := Build_Response {
  ok : bool;
  body : option Data.t }.

(** What [await fetch(...)] yields: a response, or the rejection of the
    promise (network failure). *)
Inductive FetchResult : Type :=
| Responded (res : Response)
| Rejected.

(** What the handlers can throw. *)
Inductive Exn : Type :=
| FetchFailed
| JsonFailed
| Error (msg : jsstring).

(** ** The handler monad *)

Record World : Type := Build_World {
  ui : State;
  net : nat -> Request -> FetchResult;
  log : list (Request * FetchResult);
  timers : list (N * (State -> State)) }.

Inductive Completion (A : Type) : Type :=
| Normal (a : A)
| Throw (e : Exn).
Arguments Normal {A} a.
Arguments Throw {A} e.

Definition M (A : Type) : Type := World -> Completion A * World.

Definition ret {A} (a : A) : M A := fun w => (Normal a, w).

Definition bind {A B} (c : M A) (k : A -> M B) : M B :=
  fun w => match c w with
           | (Normal a, w') => k a w'
           | (Throw e, w') => (Throw e, w')
           end.

Definition throw {A} (e : Exn) : M A := fun w => (Throw e, w).

Declare Scope handler_scope.
Delimit Scope handler_scope with handler.
Notation "x <- c ;; k" := (bind c (fun x => k))
  (at level 61, c at next level, right associativity) : handler_scope.
Notation "c ;; k" := (bind c (fun _ => k))
  (at level 61, right associativity) : handler_scope.
Bind Scope handler_scope with M.
Open Scope handler_scope.

(** [try { b } catch { h }] *)
Definition try_catch {A} (b h : M A) : M A :=
  fun w => match b w with
           | (Normal a, w') => (Normal a, w')
           | (Throw _, w') => h w'
           end.

(** [... finally { f }]: [f] runs after either completion of [b]; the
    completion of [b] stands unless [f] itself throws. *)
Definition finally {A} (b : M A) (f : M unit) : M A :=
  fun w => match b w with
           | (r, w') => match f w' with
                        | (Normal _, w'') => (r, w'')
                        | (Throw e, w'') => (Throw e, w'')
                        end
           end.

(** A state setter called with a value, and one called with an updater
    function of the live state. *)
Definition set (f : State -> State) : M unit :=
  fun w => (Normal tt,
            {| ui := f (ui w); net := net w; log := log w;
               timers := timers w |}).

Definition setRawText v := set (with_rawText v).
Definition setEmails v := set (with_emails v).
Definition updateEmails (f : list EmailItem.t -> list EmailItem.t) :=
  set (fun s => with_emails (f (emails s)) s).
Definition setLoading v := set (with_loading v).
Definition setError v := set (with_error v).
Definition setModalOpen v := set (with_modalOpen v).
Definition setApproveStatus v := set (with_approveStatus v).
Definition setModalDraft v := set (with_modalDraft v).
Definition setModalEmailId v := set (with_modalEmailId v).
Definition setModalLoading v := set (with_modalLoading v).
Definition setFollowUp v := set (with_followUp v).
Definition setSentLog v := set (with_sentLog v).
Definition setSentLogOpen v := set (with_sentLogOpen v).
Definition setSentLogLoading v := set (with_sentLogLoading v).
Definition setSentJustNow v := set (with_sentJustNow v).
Definition setLastAnalyzedText v := set (with_lastAnalyzedText v).

(** [setTimeout(cb, delay)] with a callback that is a state update. *)
Definition setTimeout (cb : State -> State) (delay : N) : M unit :=
  fun w => (Normal tt,
            {| ui := ui w; net := net w; log := log w;
               timers := timers w ++ [(delay, cb)] |}).

(** [await fetch(...)]: the request is logged with what the service yields
    for it; a rejected promise is a throw at the [await]. *)
Definition fetch (r : Request) : M Response :=
  fun w =>
    let res := net w (length (log w)) r in
    let w' := {| ui := ui w; net := net w; log := log w ++ [(r, res)];
                 timers := timers w |} in
    match res with
    | Responded rsp => (Normal rsp, w')
    | Rejected => (Throw FetchFailed, w')
    end.

(** [await res.json()] *)
Definition json (res : Response) : M Data.t :=
  match body res with
  | Some data => ret data
  | None => throw JsonFailed
  end.

(** [x ?? d] *)
Definition nullish {A} (x : option A) (d : A) : A :=
  match x with Some a => a | None => d end.

(** Truthiness of an optional string: present and not empty. *)
Definition truthy (x : option jsstring) : bool :=
  match x with Some (_ :: _) => true | _ => false end.

(** ** The component *)

(** The three lists computed at every render. *)
Definition urgentEmails (s : State) : list EmailItem.t :=
  filter (fun e => jsstring_eqb (EmailItem.urgency e) (js "urgent")) (emails s).
Definition normalEmails (s : State) : list EmailItem.t :=
  filter (fun e => jsstring_eqb (EmailItem.urgency e) (js "normal")) (emails s).
Definition lowEmails (s : State) : list EmailItem.t :=
  filter (fun e => jsstring_eqb (EmailItem.urgency e) (js "low")) (emails s).

(** The urgency is one of the three values a bucket filters on. *)
Definition recognized (e : EmailItem.t) : bool :=
  jsstring_eqb (EmailItem.urgency e) (js "urgent")
  || jsstring_eqb (EmailItem.urgency e) (js "normal")
  || jsstring_eqb (EmailItem.urgency e) (js "low").

(** [disabled] of the approve button:
    [modalLoading || !modalDraft.trim() || sentJustNow]. *)
Definition approve_disabled (s : State) : bool :=
  modalLoading s
  || match trim (modalDraft s) with [] => true | _ :: _ => false end
  || sentJustNow s.

(** Handlers take the snapshot [c] of the state their render closed over.
    The four below are the same text in both revisions. *)

Definition loadSentLog (c : State) : M unit :=
  setSentLogLoading true ;;
  setError None ;;
  finally
    (try_catch
       (res <- fetch GET_emails_sent ;;
        data <- json res ;;
        setSentLog (nullish (Data.items data) []) ;;
        setSentLogOpen true)
       (setError (Some (js "Failed to load sent log."))))
    (setSentLogLoading false).

Definition clearSentLog (c : State) : M unit :=
  setError None ;;
  setSentLogLoading true ;;
  setSentLogOpen false ;;
  finally
    (try_catch
       (res <- fetch POST_emails_sent_clear ;;
        (if negb (ok res) then throw (Error (js "Clear failed")) else ret tt) ;;
        setSentLog [])
       (setError (Some (js "Failed to clear outbox."))))
    (setSentLogLoading false).

Definition suggestReply (c : State) (email : EmailItem.t) : M unit :=
  setModalOpen true ;;
  setApproveStatus None ;;
  setSentJustNow false ;;
  setModalEmailId (Some (EmailItem.id email)) ;;
  setModalDraft (js "") ;;
  setModalLoading true ;;
  setError None ;;
  finally
    (try_catch
       (res <- fetch (POST_emails_reply_suggest (EmailItem.content email)
                        (EmailItem.urgency email) (EmailItem.intent email)) ;;
        data <- json res ;;
        if truthy (Data.draft data)
        then setModalDraft (nullish (Data.draft data) [])
        else setModalDraft (nullish (Data.message data)
                              (js "No draft available.")))
       (setModalDraft (js "Failed to get reply suggestion.")))
    (setModalLoading false).

Definition cleanFormatting (c : State) : M unit :=
  setRawText (cleaned (rawText c)).

(** [email?.intent ?? "default"] for [email = emails.find(e => e.id === id)] *)
Definition intent_of (es : list EmailItem.t) (id : Z) : jsstring :=
  match find (fun e => Z.eqb (EmailItem.id e) id) es with
  | Some email => nullish (EmailItem.intent email) (js "default")
  | None => js "default"
  end.

(** The earlier revision. *)
Module Earlier.

Definition loadDemo (c : State) : M unit :=
  setError None ;;
  try_catch
    (res <- fetch GET_emails_demo ;;
     data <- json res ;;
     setRawText (Data.raw_text data))
    (setError (Some (js "Failed to load demo emails."))).

Definition analyzeEmails (c : State) : M unit :=
  match trim (rawText c) with
  | [] => setError (Some (js "Please paste emails or load demo data."))
  | _ :: _ =>
      setLoading true ;;
      setError None ;;
      setSentLogOpen false ;;
      setSentLog [] ;;
      finally
        (try_catch
           (res <- fetch (POST_emails_analyze (rawText c)) ;;
            data <- json res ;;
            setEmails (Data.emails data) ;;
            setFollowUp (Data.follow_up data))
           (setError (Some (js "Failed to analyze emails."))))
        (setLoading false)
  end.

Definition approveAndSend (c : State) : M unit :=
  match modalEmailId c with
  | None => ret tt
  | Some modalEmailId =>
      setApproveStatus (Some (js "Sending...")) ;;
      try_catch
        (let intent := intent_of (emails c) modalEmailId in
         res <- fetch (POST_emails_reply_approve modalEmailId intent
                         (modalDraft c)) ;;
         data <- json res ;;
         setApproveStatus
           (Some (nullish (Data.message data)
                    (js "Marked as sent (simulated)."))) ;;
         updateEmails
           (filter (fun e => negb (Z.eqb (EmailItem.id e) modalEmailId))) ;;
         setTimeout (with_modalOpen false) 800 ;;
         setSentJustNow true)
        (setApproveStatus (Some (js "Failed to approve/send.")))
  end.

End Earlier.

(** The later revision, [src/App.tsx]. *)
Module Later.

Definition loadDemo (c : State) : M unit :=
  setError None ;;
  try_catch
    (clearRes <- fetch POST_emails_sent_clear ;;
     (if negb (ok clearRes) then throw (Error (js "Clear failed"))
      else ret tt) ;;
     setSentLog [] ;;
     res <- fetch GET_emails_demo ;;
     data <- json res ;;
     setRawText (Data.raw_text data))
    (setError (Some (js "Failed to load demo emails."))).

Definition analyzeEmails (c : State) : M unit :=
  setLoading true ;;
  setError None ;;
  (if negb (jsstring_eqb (rawText c) (lastAnalyzedText c))
   then
     clearRes <- fetch POST_emails_sent_clear ;;
     (if negb (ok clearRes) then throw (Error (js "Clear failed"))
      else ret tt) ;;
     setSentLog [] ;;
     setLastAnalyzedText (rawText c)
   else ret tt) ;;
  setSentLogOpen false ;;
  setSentLog [] ;;
  finally
    (try_catch
       (res <- fetch (POST_emails_analyze (rawText c)) ;;
        data <- json res ;;
        setEmails (Data.emails data) ;;
        setFollowUp (Data.follow_up data))
       (setError (Some (js "Failed to analyze emails."))))
    (setLoading false).

Definition approveAndSend (c : State) : M unit :=
  match modalEmailId c with
  | None => ret tt
  | Some modalEmailId =>
      setApproveStatus (Some (js "Sending...")) ;;
      try_catch
        (let intent := intent_of (emails c) modalEmailId in
         res <- fetch (POST_emails_reply_approve modalEmailId intent
                         (modalDraft c)) ;;
         data <- json res ;;
         setApproveStatus
           (Some (nullish (Data.message data)
                    (js "Marked as sent (simulated)."))) ;;
         updateEmails
           (filter (fun e => negb (Z.eqb (EmailItem.id e) modalEmailId))) ;;
         setTimeout (with_modalOpen false) 800 ;;
         setSentJustNow true ;;
         if sentLogOpen c then loadSentLog c else ret tt)
        (setApproveStatus (Some (js "Failed to approve/send.")))
  end.

End Later.

(** An event: the handler of the current render is invoked and runs until its
    promise settles. *)
Definition invoke {A} (h : State -> M A) (w : World) : Completion A * World :=
  h (ui w) w.

(** The exchanges of one handler run: what the log gained from [w] to [w']. *)
Definition issued (w w' : World) : list (Request * FetchResult) :=
  skipn (length (log w)) (log w').

(** The request did not yield a parsed body: [fetch] rejected, or
    [res.json()] did. *)
Definition fetch_failed (r : FetchResult) : bool :=
  match r with
  | Rejected => true
  | Responded res => match body res with None => true | Some _ => false end
  end.

(** The draft the specification names for a parsed suggestion response: its
    [draft] if present, else its [message] if present, else the fixed text. *)
Definition draft_as_specified (data : Data.t) : jsstring :=
  match Data.draft data with
  | Some d => d
  | None => nullish (Data.message data) (js "No draft available.")
  end.

(** The last successfully analyzed text, read off a request log: the raw text
    of the latest analyze request that yielded a parsed body, and [init] (the
    text the component starts with) when there is none. *)
Fixpoint last_successfully_analyzed (l : list (Request * FetchResult))
    (init : jsstring) : jsstring :=
  match l with
  | [] => init
  | (POST_emails_analyze raw, res) :: l' =>
      last_successfully_analyzed l' (if fetch_failed res then init else raw)
  | _ :: l' => last_successfully_analyzed l' init
  end.

(** ** Sample data *)

Definition sample_email : EmailItem.t :=
  {| EmailItem.id := 7;
     EmailItem.subject := Some (js "Server down");
     EmailItem.from := Some (js "ops@example.com");
     EmailItem.content := js "The production server is down.";
     EmailItem.summary := js "Outage";
     EmailItem.urgency := js "urgent";
     EmailItem.intent := Some (js "incident");
     EmailItem.reason := js "Outage reported";
     EmailItem.actions := Some [js "suggest_reply_now"] |}.

Definition other_email : EmailItem.t :=
  {| EmailItem.id := 8;
     EmailItem.subject := None;
     EmailItem.from := None;
     EmailItem.content := js "Lunch on Friday?";
     EmailItem.summary := js "Lunch";
     EmailItem.urgency := js "low";
     EmailItem.intent := None;
     EmailItem.reason := js "Social";
     EmailItem.actions := None |}.

(** A response object with nothing but the given draft and message. *)
Definition reply_data (draft message : option jsstring) : Data.t :=
  {| Data.raw_text := []; Data.emails := []; Data.follow_up := None;
     Data.items := None; Data.draft := draft; Data.message := message |}.

Definition analysis_data (es : list EmailItem.t) : Data.t :=
  {| Data.raw_text := []; Data.emails := es; Data.follow_up := None;
     Data.items := None; Data.draft := None; Data.message := None |}.

(** A service that answers every request 200 with the same object, one that
    answers 500 without a body, and one that is unreachable. *)
Definition server_ok (data : Data.t) : nat -> Request -> FetchResult :=
  fun _ _ => Responded {| ok := true; body := Some data |}.
Definition server_error : nat -> Request -> FetchResult :=
  fun _ _ => Responded {| ok := false; body := None |}.
Definition server_down : nat -> Request -> FetchResult :=
  fun _ _ => Rejected.

(** A service whose analysis endpoint is unreachable while the others answer. *)
Definition server_analysis_down : nat -> Request -> FetchResult :=
  fun _ r =>
    match r with
    | POST_emails_analyze _ => Rejected
    | _ => Responded {| ok := true; body := Some (analysis_data []) |}
    end.

Definition world_of (s : State) (srv : nat -> Request -> FetchResult) : World :=
  {| ui := s; net := srv; log := []; timers := [] |}.

(** The reply modal is open on [sample_email] with an edited draft. *)
Definition modal_state : State :=
  with_modalOpen true
    (with_modalEmailId (Some 7%Z)
       (with_modalDraft (js "On it.")
          (with_emails [sample_email; other_email] initial_state))).

(** Text was pasted and not analyzed yet. *)
Definition pasted_state : State := with_rawText (js "hello") initial_state.

(** Two emails are on the page and new text was pasted. *)
Definition repasted_state : State := with_rawText (js "hello") modal_state.

(** ** Events

    The wiring of the page: the controls, the handler behind each, and when
    the control is on the page and not disabled.  Between two events the
    component is at rest; an event runs its handler to the settlement of its
    promise.  A pending timer may fire between any two events.  The backdrop
    of the open modal is not taken to shield the page behind it, so the page
    controls are offered while the modal is open (the keyboard reaches them). *)

Inductive Revision : Type := earlier | later.

Inductive Event : Type :=
| ChangeRawText (v : jsstring)
| ClickLoadDemo
| ClickCleanFormatting
| ClickAnalyze
| HoverAnalyze (over : bool)
| ClickOutbox
| ClickOutboxClose
| ClickOutboxClear
| ClickSuggestReply (email : EmailItem.t)
| ClickModalClose
| ChangeDraft (v : jsstring)
| ClickApprove
| TimerFires (n : nat).

(** [email.actions?.includes("suggest_reply_now")]: the condition under which
    an urgent card carries the "Suggest reply" button. *)
Definition reply_offered (email : EmailItem.t) : bool :=
  match EmailItem.actions email with
  | Some acts => existsb (fun a => jsstring_eqb a (js "suggest_reply_now")) acts
  | None => false
  end.

(** The control of the event is rendered and enabled. *)
Definition offered (rev : Revision) (w : World) (ev : Event) : Prop :=
  match ev with
  | ChangeRawText _ | ClickLoadDemo | ClickCleanFormatting => True
  | ClickAnalyze => loading (ui w) = false
  | HoverAnalyze _ => rev = later
  | ClickOutbox => sentLogLoading (ui w) = false
  | ClickOutboxClose => sentLogOpen (ui w) = true
  | ClickOutboxClear => sentLogOpen (ui w) = true /\ sentLog (ui w) <> []
  | ClickSuggestReply email =>
      In email (urgentEmails (ui w)) /\ reply_offered email = true
  | ClickModalClose => modalOpen (ui w) = true
  | ChangeDraft _ => modalOpen (ui w) = true /\ modalLoading (ui w) = false
  | ClickApprove => modalOpen (ui w) = true /\ approve_disabled (ui w) = false
  | TimerFires n => n < length (timers w)
  end.

(** The [n]-th pending timer fires: its callback runs and it is gone. *)
Definition fire (n : nat) (w : World) : World :=
  match nth_error (timers w) n with
  | Some (_, cb) =>
      {| ui := cb (ui w); net := net w; log := log w;
         timers := firstn n (timers w) ++ skipn (S n) (timers w) |}
  | None => w
  end.

(** The state after an event. *)
Definition step (rev : Revision) (w : World) (ev : Event) : World :=
  match ev with
  | ChangeRawText v => snd (invoke (fun _ => setRawText v) w)
  | ClickLoadDemo =>
      snd (invoke (match rev with
                   | earlier => Earlier.loadDemo
                   | later => Later.loadDemo
                   end) w)
  | ClickCleanFormatting => snd (invoke cleanFormatting w)
  | ClickAnalyze =>
      snd (invoke (match rev with
                   | earlier => Earlier.analyzeEmails
                   | later => Later.analyzeEmails
                   end) w)
  | HoverAnalyze over => snd (invoke (fun _ => set (with_analyzeHover over)) w)
  | ClickOutbox => snd (invoke loadSentLog w)
  | ClickOutboxClose => snd (invoke (fun _ => setSentLogOpen false) w)
  | ClickOutboxClear => snd (invoke clearSentLog w)
  | ClickSuggestReply email => snd (invoke (fun c => suggestReply c email) w)
  | ClickModalClose => snd (invoke (fun _ => setModalOpen false) w)
  | ChangeDraft v => snd (invoke (fun _ => setModalDraft v) w)
  | ClickApprove =>
      snd (invoke (match rev with
                   | earlier => Earlier.approveAndSend
                   | later => Later.approveAndSend
                   end) w)
  | TimerFires n => fire n w
  end.

(** [w'] is reached from [w] by events that were offered when they happened. *)
Inductive steps (rev : Revision) : World -> World -> Prop :=
| steps_refl w : steps rev w w
| steps_next w w' ev :
    steps rev w w' -> offered rev w' ev -> steps rev w (step rev w' ev).

(** As [steps], with no "Suggest reply" among the events. *)
Inductive steps_without_suggest (rev : Revision) : World -> World -> Prop :=
| sws_refl w : steps_without_suggest rev w w
| sws_next w w' ev :
    steps_without_suggest rev w w' -> offered rev w' ev ->
    (forall email, ev <> ClickSuggestReply email) ->
    steps_without_suggest rev w (step rev w' ev).

(** The exchange is an approve request. *)
Definition is_approve (x : Request * FetchResult) : Prop :=
  match fst x with
  | POST_emails_reply_approve _ _ _ => True
  | _ => False
  end.

(** The states of a session: from the mounted component, against any
    service. *)
Definition reachable (rev : Revision) (w : World) : Prop :=
  exists srv, steps rev (world_of initial_state srv) w.

(** A sample session of the earlier revision against a service that answers
    every request with [sample_email] analyzed: paste, analyze, ask for a
    reply to the urgent email, approve it. *)
Definition session_service : nat -> Request -> FetchResult :=
  server_ok (analysis_data [sample_email]).

Definition session_after_approval : World :=
  step earlier
    (step earlier
       (step earlier
          (step earlier (world_of initial_state session_service)
             (ChangeRawText (js "hello")))
          ClickAnalyze)
       (ClickSuggestReply sample_email))
    ClickApprove.

(** Every pending timer is the one [approveAndSend] sets: 800 units, closing
    the modal. *)
Definition timers_ok (w : World) : Prop :=
  Forall (fun t => t = (800%N, with_modalOpen false)) (timers w).

(** ** The clean-up in the words of the specification

    These definitions follow the prose (runs of line breaks, runs of spaces
    and tabs, leading and trailing whitespace), not the regular expressions;
    they are compared with [cleaned] below. *)

Section Runs.
Variable cls : char16 -> bool.

(** The maximal runs of [s]: consecutive code units that are all inside the
    class or all outside it, each tagged with which. *)
Fixpoint runs (s : jsstring) : list (bool * jsstring) :=
  match s with
  | [] => []
  | c :: s' =>
      match runs s' with
      | (b, run) :: rest =>
          if Bool.eqb (cls c) b then (b, c :: run) :: rest
          else (cls c, [c]) :: (b, run) :: rest
      | [] => [(cls c, [c])]
      end
  end.

(** Every run inside the class of [lo] or more code units becomes [r]. *)
Definition collapse_runs (lo : nat) (r s : jsstring) : jsstring :=
  concat (map (fun br : bool * jsstring =>
                 if fst br && Nat.leb lo (length (snd br)) then r
                 else snd br)
            (runs s)).
End Runs.

(** [t] is [s] without its leading and trailing whitespace. *)
Definition trimmed_of (t s : jsstring) : Prop :=
  exists pre suf,
    s = pre ++ t ++ suf
    /\ Forall (fun c => is_js_space c = true) pre
    /\ Forall (fun c => is_js_space c = true) suf
    /\ (forall c t', t = c :: t' -> is_js_space c = false)
    /\ (forall c t', t = t' ++ [c] -> is_js_space c = false).

(** No two neighbours of [s] are both inside the class. *)
Definition NoAdj (cls : char16 -> bool) (s : jsstring) : Prop :=
  forall a c d b, s = a ++ c :: d :: b -> cls c = true -> cls d = false.

(** [s] is a fixed point of replacing the runs of a class by the one code
    unit [rc]: its code units of the class are [rc], each standing alone. *)
Definition Tidy (cls : char16 -> bool) (rc : char16) (s : jsstring) : Prop :=
  NoAdj cls s /\ Forall (fun c => cls c = true -> c = rc) s.

(** ** Scanning lemmas *)

Section ScanFacts.
Variable cls : char16 -> bool.

Lemma take_drop_while (s : jsstring) :
  take_while cls s ++ drop_while cls s = s.
Proof.
  induction s as [|c s IH]; simpl; [reflexivity|].
  destruct (cls c); simpl; [now rewrite IH | reflexivity].
Qed.

Lemma take_while_all (s : jsstring) :
  Forall (fun c => cls c = true) (take_while cls s).
Proof.
  induction s as [|c s IH]; simpl; [constructor|].
  destruct (cls c) eqn:E; constructor; assumption.
Qed.

Lemma drop_while_head (s : jsstring) c t :
  drop_while cls s = c :: t -> cls c = false.
Proof.
  induction s as [|x s IH]; simpl; [discriminate|].
  destruct (cls x) eqn:E; [exact IH|].
  intros H; injection H as -> _. exact E.
Qed.

Lemma drop_while_id (s : jsstring) :
  (forall c t, s = c :: t -> cls c = false) -> drop_while cls s = s.
Proof.
  destruct s as [|c s]; simpl; [reflexivity|].
  intros H. now rewrite (H c s eq_refl).
Qed.

Lemma skipn_take_while (s : jsstring) :
  skipn (length (take_while cls s)) s = drop_while cls s.
Proof.
  induction s as [|c s IH]; simpl; [reflexivity|].
  destruct (cls c); simpl; [exact IH | reflexivity].
Qed.

Lemma length_drop_while (s : jsstring) :
  length (drop_while cls s) <= length s.
Proof.
  rewrite <- (take_drop_while s) at 2. rewrite length_app. lia.
Qed.

(** Induction on the length of the scanned string. *)
Lemma scan_ind (P : jsstring -> Prop) :
  P [] ->
  (forall c s, cls c = false -> P s -> P (c :: s)) ->
  (forall c s, cls c = true -> P (drop_while cls s) -> P (c :: s)) ->
  forall s, P s.
Proof.
  intros Hnil Hout Hin s.
  remember (length s) as n eqn:Hn.
  assert (Hle : length s <= n) by lia. clear Hn.
  revert s Hle. induction n as [|n IH]; intros [|c s] Hle; simpl in Hle;
    try exact Hnil; try lia.
  destruct (cls c) eqn:E.
  - apply Hin; [exact E|]. apply IH.
    pose proof (length_drop_while s). lia.
  - apply Hout; [exact E|]. apply IH. lia.
Qed.

(** The defining equations of [replace_all] for a pattern that cannot match
    the empty string. *)
Variable lo : nat.
Variable r : jsstring.
Hypothesis lo_pos : 1 <= lo.

Lemma replace_all_nil : replace_all cls lo r [] = [].
Proof.
  simp replace_all. destruct lo; [lia | reflexivity].
Qed.

Lemma replace_all_outside c s :
  cls c = false -> replace_all cls lo r (c :: s) = c :: replace_all cls lo r s.
Proof.
  intros E. simp replace_all. unfold match_at. simpl. rewrite E. simpl.
  destruct lo; [lia|]. reflexivity.
Qed.

Lemma replace_all_match c s :
  cls c = true -> lo <= S (length (take_while cls s)) ->
  replace_all cls lo r (c :: s) = r ++ replace_all cls lo r (drop_while cls s).
Proof.
  intros E Hlen. simp replace_all. unfold match_at. simpl. rewrite E. simpl.
  destruct (Nat.leb_spec lo (S (length (take_while cls s)))); [|lia].
  simpl. now rewrite skipn_take_while.
Qed.

Lemma replace_all_short_run (s : jsstring) :
  length (take_while cls s) < lo ->
  replace_all cls lo r s
  = take_while cls s ++ replace_all cls lo r (drop_while cls s).
Proof.
  induction s as [|c s IH]; simpl; intros Hlen; [reflexivity|].
  destruct (cls c) eqn:E; simpl in *; [|reflexivity].
  simp replace_all. unfold match_at. simpl. rewrite E. simpl.
  destruct (Nat.leb_spec lo (S (length (take_while cls s)))); [lia|].
  simpl. f_equal. apply IH. lia.
Qed.
End ScanFacts.

(** ** Neighbouring code units *)

Lemma NoAdj_nil cls : NoAdj cls [].
Proof. intros [|x a] c d b H; discriminate. Qed.

Lemma NoAdj_cons cls c s :
  NoAdj cls s ->
  (cls c = true -> forall d t, s = d :: t -> cls d = false) ->
  NoAdj cls (c :: s).
Proof.
  intros Hs Hc [|x a] c' d b H Hc'.
  - simpl in H. injection H as <- ->. now apply (Hc Hc' d b).
  - simpl in H. injection H as _ ->. now apply (Hs a c' d b).
Qed.

Lemma NoAdj_infix cls a s b : NoAdj cls (a ++ s ++ b) -> NoAdj cls s.
Proof.
  intros H a' c d b' -> Hc.
  apply (H (a ++ a') c d (b' ++ b)); [|exact Hc].
  now rewrite <- !app_assoc.
Qed.

Lemma NoAdj_tail cls c s : NoAdj cls (c :: s) -> NoAdj cls s.
Proof. intros H. apply (NoAdj_infix cls [c] s []). now rewrite app_nil_r. Qed.

Lemma NoAdj_head cls c d t : NoAdj cls (c :: d :: t) -> cls c = true -> cls d = false.
Proof. intros H. now apply (H [] c d t). Qed.

(** ** One replacement, when the replacement is one code unit

    Both patterns of [cleanFormatting] replace a run by a single code unit
    [rc], and a run too short to match is the string [rc] already (for
    [\n{2,}]: a single line feed). *)

Section Squeeze.
Variable cls : char16 -> bool.
Variable lo : nat.
Variable rc : char16.
Hypothesis lo_pos : 1 <= lo.
Hypothesis short_run :
  forall c, cls c = true -> lo <= 1 \/ (lo <= 2 /\ c = rc).

Local Abbreviation out := (replace_all cls lo [rc]).
Local Abbreviation Tidy := (Tidy cls rc).

Lemma out_nil : out [] = [].
Proof. now apply replace_all_nil. Qed.

Lemma out_outside c s : cls c = false -> out (c :: s) = c :: out s.
Proof. now apply replace_all_outside. Qed.

Lemma out_inside c s :
  cls c = true -> out (c :: s) = rc :: out (drop_while cls s).
Proof.
  intros E.
  destruct (le_lt_dec lo (S (length (take_while cls s)))) as [Hle|Hlt].
  - now rewrite replace_all_match.
  - destruct (short_run c E) as [H1|[H2 ->]]; [lia|].
    assert (Hnil : take_while cls s = []).
    { destruct (take_while cls s); [reflexivity | simpl in Hlt; lia]. }
    rewrite replace_all_short_run; [|exact lo_pos|simpl; rewrite E; simpl; lia].
    simpl. rewrite E, Hnil. reflexivity.
Qed.

Lemma out_head s d t :
  out s = d :: t ->
  exists c s', s = c :: s' /\ d = (if cls c then rc else c).
Proof.
  destruct s as [|c s]; [rewrite out_nil; discriminate|].
  intros H. exists c, s. split; [reflexivity|].
  destruct (cls c) eqn:E.
  - rewrite (out_inside c s E) in H. now injection H.
  - rewrite (out_outside c s E) in H. now injection H.
Qed.

Lemma out_tidy s : Tidy (out s).
Proof.
  induction s as [|c s E IH|c s E IH] using (scan_ind cls).
  - rewrite out_nil. split; [apply NoAdj_nil | constructor].
  - rewrite (out_outside c s E). destruct IH as [IH1 IH2]. split.
    + apply NoAdj_cons; [exact IH1 | congruence].
    + constructor; [congruence | exact IH2].
  - rewrite (out_inside c s E). destruct IH as [IH1 IH2]. split.
    + apply NoAdj_cons; [exact IH1|].
      intros _ d t Hd. apply out_head in Hd as (x & s' & Hs & ->).
      pose proof (drop_while_head cls s x s' Hs) as Hx.
      rewrite Hx. exact Hx.
    + constructor; [reflexivity | exact IH2].
Qed.

Lemma out_stable s : Tidy s -> out s = s.
Proof.
  induction s as [|c s IH]; intros [Hadj Hall]; [apply out_nil|].
  assert (Hs : out s = s).
  { apply IH. split; [now apply NoAdj_tail in Hadj | now inversion Hall]. }
  destruct (cls c) eqn:E.
  - rewrite (out_inside c s E), drop_while_id.
    + rewrite Hs. f_equal. inversion Hall; subst. symmetry. auto.
    + intros d t ->. now apply (NoAdj_head cls c d t Hadj).
  - now rewrite (out_outside c s E), Hs.
Qed.

(** A class [q] that [rc] is outside of keeps its neighbours apart. *)
Lemma out_NoAdj (q : char16 -> bool) s :
  q rc = false -> NoAdj q s -> NoAdj q (out s).
Proof.
  intros Hq.
  induction s as [|c s E IH|c s E IH] using (scan_ind cls); intros Hadj.
  - rewrite out_nil. apply NoAdj_nil.
  - rewrite (out_outside c s E).
    apply NoAdj_cons; [apply IH; now apply NoAdj_tail in Hadj|].
    intros Hc d t Hd. apply out_head in Hd as (x & s' & -> & ->).
    destruct (cls x); [exact Hq | now apply (NoAdj_head q c x s' Hadj)].
  - rewrite (out_inside c s E).
    apply NoAdj_cons; [|congruence].
    apply IH. apply (NoAdj_infix q (c :: take_while cls s) _ []).
    rewrite app_nil_r. simpl. now rewrite take_drop_while.
Qed.
End Squeeze.

(** ** Trimming *)

Lemma trim_split s :
  s = take_while is_js_space s ++ trim s
      ++ rev (take_while is_js_space (rev (drop_while is_js_space s))).
Proof.
  unfold trim. rewrite <- rev_app_distr, take_drop_while, rev_involutive.
  now rewrite take_drop_while.
Qed.

Lemma trim_head s c t : trim s = c :: t -> is_js_space c = false.
Proof.
  intros H. pose proof (trim_split s) as Hs. rewrite H in Hs.
  apply (drop_while_head is_js_space s c
           (t ++ rev (take_while is_js_space (rev (drop_while is_js_space s))))).
  rewrite <- (take_drop_while is_js_space s) in Hs at 1.
  now apply app_inv_head in Hs.
Qed.

Lemma trim_last s c t : trim s = t ++ [c] -> is_js_space c = false.
Proof.
  unfold trim. intros H. apply (f_equal (@rev char16)) in H.
  rewrite rev_involutive, rev_app_distr in H. simpl in H.
  now apply drop_while_head in H.
Qed.

Lemma trim_stable t :
  (forall c t', t = c :: t' -> is_js_space c = false) ->
  (forall c t', t = t' ++ [c] -> is_js_space c = false) ->
  trim t = t.
Proof.
  intros Hhd Hlast. unfold trim.
  rewrite (drop_while_id is_js_space t Hhd).
  rewrite drop_while_id; [apply rev_involutive|].
  intros c u Hu. apply (Hlast c (rev u)).
  rewrite <- (rev_involutive t), Hu. reflexivity.
Qed.

Lemma trim_trimmed_of s : trimmed_of (trim s) s.
Proof.
  exists (take_while is_js_space s),
    (rev (take_while is_js_space (rev (drop_while is_js_space s)))).
  split; [apply trim_split|].
  split; [apply take_while_all|].
  split; [apply Forall_rev, take_while_all|].
  split; [apply trim_head | apply trim_last].
Qed.

(** ** Runs *)

Section RunsFacts.
Variable cls : char16 -> bool.

Lemma runs_concat s : concat (map snd (runs cls s)) = s.
Proof.
  induction s as [|c s IH]; simpl; [reflexivity|].
  destruct (runs cls s) as [|[b run] rest]; simpl in *.
  - now rewrite <- IH.
  - destruct (Bool.eqb (cls c) b); simpl; now rewrite <- IH.
Qed.

Lemma runs_head c s :
  exists run rest, runs cls (c :: s) = (cls c, run) :: rest.
Proof.
  simpl. destruct (runs cls s) as [|[b run] rest]; [now eexists _, _|].
  destruct (Bool.eqb (cls c) b) eqn:E; [|now eexists _, _].
  apply eqb_prop in E. subst b. now eexists _, _.
Qed.

Lemma runs_cons c s :
  runs cls (c :: s)
  = match runs cls s with
    | (b, run) :: rest =>
        if Bool.eqb (cls c) b then (b, c :: run) :: rest
        else (cls c, [c]) :: (b, run) :: rest
    | [] => [(cls c, [c])]
    end.
Proof. reflexivity. Qed.

Lemma runs_inside c s :
  cls c = true ->
  runs cls (c :: s) = (true, c :: take_while cls s) :: runs cls (drop_while cls s).
Proof.
  revert c. induction s as [|d s IH]; intros c E.
  - simpl. now rewrite E.
  - rewrite runs_cons. cbn [take_while drop_while].
    destruct (cls d) eqn:Ed.
    + rewrite (IH d Ed), E. reflexivity.
    + destruct (runs_head d s) as (run & rest & Hr).
      rewrite Hr, E, Ed. reflexivity.
Qed.

Variable lo : nat.
Variable r : jsstring.

Lemma collapse_runs_outside c s :
  cls c = false ->
  collapse_runs cls lo r (c :: s) = c :: collapse_runs cls lo r s.
Proof.
  intros E. unfold collapse_runs. simpl.
  destruct (runs cls s) as [|[b run] rest]; simpl; [now rewrite E|].
  rewrite E. destruct b; simpl; reflexivity.
Qed.

Lemma collapse_runs_inside c s :
  cls c = true ->
  collapse_runs cls lo r (c :: s)
  = (if Nat.leb lo (S (length (take_while cls s))) then r
     else c :: take_while cls s)
    ++ collapse_runs cls lo r (drop_while cls s).
Proof.
  intros E. unfold collapse_runs. now rewrite (runs_inside c s E).
Qed.
End RunsFacts.

(** The scan of the regular expression replaces exactly the maximal runs of
    [lo] or more code units of the class. *)
Lemma replace_all_collapse_runs cls lo r s :
  1 <= lo -> replace_all cls lo r s = collapse_runs cls lo r s.
Proof.
  intros Hlo. revert s.
  apply (scan_ind cls); [|intros c s E IH|intros c s E IH].
  - now rewrite replace_all_nil.
  - now rewrite replace_all_outside, collapse_runs_outside, IH.
  - rewrite (collapse_runs_inside cls lo r c s E).
    destruct (Nat.leb_spec lo (S (length (take_while cls s)))) as [Hle|Hlt].
    + now rewrite replace_all_match, IH.
    + rewrite replace_all_short_run; [|exact Hlo|simpl; rewrite E; simpl; lia].
      simpl. rewrite E, IH. reflexivity.
Qed.

Lemma drop_while_app_all cls pre s :
  Forall (fun c => cls c = true) pre ->
  drop_while cls (pre ++ s) = drop_while cls s.
Proof.
  induction 1 as [|c pre Hc _ IH]; simpl; [reflexivity|]. now rewrite Hc.
Qed.

(** [trimmed_of] determines the trimmed string: it is what [trim] returns. *)
Lemma trimmed_of_trim t s : trimmed_of t s -> t = trim s.
Proof.
  intros (pre & suf & -> & Hpre & Hsuf & Hhd & Hlast). unfold trim.
  rewrite (drop_while_app_all _ pre _ Hpre).
  destruct t as [|c t].
  - simpl. replace (drop_while is_js_space suf) with (@nil char16);
      [reflexivity|].
    rewrite <- (app_nil_r suf). now rewrite drop_while_app_all.
  - simpl. rewrite (Hhd c t eq_refl).
    change (c :: t ++ suf) with ((c :: t) ++ suf).
    rewrite rev_app_distr, drop_while_app_all by now apply Forall_rev.
    rewrite drop_while_id; [apply eq_sym, rev_involutive|].
    intros d u Hu. apply (Hlast d (rev u)).
    rewrite <- (rev_involutive (c :: t)), Hu. reflexivity.
Qed.

(** ** The text clean-up *)

Lemma is_lf_only c : is_lf c = true -> c = LF.
Proof. unfold is_lf. apply N.eqb_eq. Qed.

Lemma Tidy_infix cls rc a s b : Tidy cls rc (a ++ s ++ b) -> Tidy cls rc s.
Proof.
  intros [Hadj Hall]. split; [now apply NoAdj_infix in Hadj|].
  apply Forall_app in Hall as [_ Hall]. now apply Forall_app in Hall as [Hall _].
Qed.

(** What [cleaned] returns has no two line feeds in a row, no tab, no two
    spaces in a row, and no whitespace at either end. *)
Lemma cleaned_shape s :
  Tidy is_lf LF (cleaned s) /\ Tidy is_sp_tab SP (cleaned s)
  /\ (forall c t, cleaned s = c :: t -> is_js_space c = false)
  /\ (forall c t, cleaned s = t ++ [c] -> is_js_space c = false).
Proof.
  unfold cleaned. change (js newline) with [LF]. change (js " ") with [SP].
  set (u1 := replace_all is_lf 2 [LF] s).
  set (u := replace_all is_sp_tab 1 [SP] u1).
  assert (H1 : Tidy is_lf LF u1).
  { apply out_tidy; [lia|]. intros c Hc. right. split; [lia|]. now apply is_lf_only. }
  assert (H2 : Tidy is_sp_tab SP u).
  { apply out_tidy; [lia|]. intros c _. left. lia. }
  assert (H3 : Tidy is_lf LF u).
  { split.
    - apply out_NoAdj; [lia | intros c _; left; lia | reflexivity | apply H1].
    - apply Forall_forall. intros c _. apply is_lf_only. }
  repeat split.
  - apply (NoAdj_infix is_lf (take_while is_js_space u) (trim u)
             (rev (take_while is_js_space (rev (drop_while is_js_space u))))).
    rewrite <- trim_split. apply H3.
  - apply Forall_forall. intros c _. apply is_lf_only.
  - apply (NoAdj_infix is_sp_tab (take_while is_js_space u) (trim u)
             (rev (take_while is_js_space (rev (drop_while is_js_space u))))).
    rewrite <- trim_split. apply H2.
  - apply (Tidy_infix is_sp_tab SP (take_while is_js_space u) (trim u)
             (rev (take_while is_js_space (rev (drop_while is_js_space u))))).
    rewrite <- trim_split. apply H2.
  - apply trim_head.
  - apply trim_last.
Qed.

Lemma cleaned_fixpoint t :
  Tidy is_lf LF t -> Tidy is_sp_tab SP t ->
  (forall c t', t = c :: t' -> is_js_space c = false) ->
  (forall c t', t = t' ++ [c] -> is_js_space c = false) ->
  cleaned t = t.
Proof.
  intros H1 H2 Hhd Hlast. unfold cleaned.
  change (js newline) with [LF]. change (js " ") with [SP].
  rewrite (out_stable is_lf 2 LF); [| lia | | exact H1].
  - rewrite (out_stable is_sp_tab 1 SP); [| lia | | exact H2].
    + now apply trim_stable.
    + intros c _. left. lia.
  - intros c Hc. right. split; [lia|]. now apply is_lf_only.
Qed.

(** C4. [cleanFormatting] is idempotent: for every input string the text
    transform applied twice gives what it gives applied once, and so clicking
    "Clean formatting" a second time leaves the whole component as the first
    click left it. *)
Theorem cleanFormatting_idempotent :
  (forall s : jsstring, cleaned (cleaned s) = cleaned s)
  /\ (forall w : World,
        let w1 := snd (invoke cleanFormatting w) in
        invoke cleanFormatting w1 = (Normal tt, w1)).
Proof.
  assert (Hidem : forall s, cleaned (cleaned s) = cleaned s).
  { intros s. destruct (cleaned_shape s) as (H1 & H2 & Hhd & Hlast).
    now apply cleaned_fixpoint. }
  split; [exact Hidem|].
  intros w. unfold invoke, cleanFormatting, setRawText, set, with_rawText.
  simpl. now rewrite Hidem.
Qed.

(** C5. [cleanFormatting] replaces every run of two or more consecutive line
    feeds by one line feed, then every run of spaces and tabs by one space,
    then strips the whitespace at both ends; and
    [cleanFormatting("a\n\n\nb   c")] is ["a\nb c"]. *)
Theorem cleanFormatting_collapses_then_trims :
  (forall s : jsstring,
      trimmed_of (cleaned s)
        (collapse_runs is_sp_tab 1 (js " ")
           (collapse_runs is_lf 2 (js newline) s)))
  /\ cleaned (js "a" ++ js newline ++ js newline ++ js newline ++ js "b   c")
     = js "a" ++ js newline ++ js "b c"
  /\ (forall w : World,
        rawText (ui (snd (invoke cleanFormatting w))) = cleaned (rawText (ui w))).
Proof.
  split; [|split; [reflexivity | reflexivity]].
  intros s. rewrite <- !replace_all_collapse_runs by lia. apply trim_trimmed_of.
Qed.

(** ** The urgency buckets *)

Lemma jsstring_eqb_eq a b : jsstring_eqb a b = true <-> a = b.
Proof.
  revert b. induction a as [|x a IH]; intros [|y b]; simpl;
    try (split; [discriminate | discriminate]); [tauto|].
  rewrite andb_true_iff, N.eqb_eq, IH. split.
  - now intros [-> ->].
  - intros H. now injection H.
Qed.

Lemma jsstring_eqb_refl a : jsstring_eqb a a = true.
Proof. now apply jsstring_eqb_eq. Qed.

(** An urgency equals at most one of the three literals. *)
Lemma urgency_cases u :
  let b1 := jsstring_eqb u (js "urgent") in
  let b2 := jsstring_eqb u (js "normal") in
  let b3 := jsstring_eqb u (js "low") in
  (b1, b2, b3) = (true, false, false) \/ (b1, b2, b3) = (false, true, false)
  \/ (b1, b2, b3) = (false, false, true) \/ (b1, b2, b3) = (false, false, false).
Proof.
  simpl.
  destruct (jsstring_eqb u (js "urgent")) eqn:E1;
    [apply jsstring_eqb_eq in E1; subst u; simpl; tauto|].
  destruct (jsstring_eqb u (js "normal")) eqn:E2;
    [apply jsstring_eqb_eq in E2; subst u; simpl; tauto|].
  destruct (jsstring_eqb u (js "low")); tauto.
Qed.

Lemma buckets_permutation (es : list EmailItem.t) :
  Permutation
    (filter (fun e => jsstring_eqb (EmailItem.urgency e) (js "urgent")) es
     ++ filter (fun e => jsstring_eqb (EmailItem.urgency e) (js "normal")) es
     ++ filter (fun e => jsstring_eqb (EmailItem.urgency e) (js "low")) es)
    (filter recognized es).
Proof.
  induction es as [|e es IH]; simpl; [constructor|].
  unfold recognized at 1.
  destruct (urgency_cases (EmailItem.urgency e)) as [H|[H|[H|H]]];
    simpl in H; injection H as -> -> ->; simpl.
  - now apply perm_skip.
  - apply Permutation_sym, Permutation_cons_app, Permutation_sym, IH.
  - rewrite app_assoc. apply Permutation_sym, Permutation_cons_app.
    rewrite <- app_assoc. apply Permutation_sym, IH.
  - exact IH.
Qed.

Lemma In_bucket (u : jsstring) (es : list EmailItem.t) e :
  In e (filter (fun e => jsstring_eqb (EmailItem.urgency e) u) es)
  <-> In e es /\ EmailItem.urgency e = u.
Proof. now rewrite filter_In, jsstring_eqb_eq. Qed.

(** C3. For every email collection the urgent, normal and low buckets are
    pairwise disjoint; together they hold exactly the emails of the collection
    whose urgency is "urgent", "normal" or "low" (as many times as the
    collection does); an email with any other urgency is in no bucket. *)
Theorem buckets_partition_recognized (s : State) :
  (forall e, ~ (In e (urgentEmails s) /\ In e (normalEmails s)))
  /\ (forall e, ~ (In e (urgentEmails s) /\ In e (lowEmails s)))
  /\ (forall e, ~ (In e (normalEmails s) /\ In e (lowEmails s)))
  /\ Permutation (urgentEmails s ++ normalEmails s ++ lowEmails s)
       (filter recognized (emails s))
  /\ (forall e,
        In e (urgentEmails s) \/ In e (normalEmails s) \/ In e (lowEmails s)
        <-> In e (emails s)
            /\ (EmailItem.urgency e = js "urgent"
                \/ EmailItem.urgency e = js "normal"
                \/ EmailItem.urgency e = js "low"))
  /\ (forall e,
        EmailItem.urgency e <> js "urgent" ->
        EmailItem.urgency e <> js "normal" ->
        EmailItem.urgency e <> js "low" ->
        ~ In e (urgentEmails s) /\ ~ In e (normalEmails s)
        /\ ~ In e (lowEmails s)).
Proof.
  unfold urgentEmails, normalEmails, lowEmails.
  split; [|split; [|split; [|split; [|split]]]].
  - intros e [H1 H2]. apply In_bucket in H1 as [_ H1], H2 as [_ H2].
    rewrite H1 in H2. discriminate.
  - intros e [H1 H2]. apply In_bucket in H1 as [_ H1], H2 as [_ H2].
    rewrite H1 in H2. discriminate.
  - intros e [H1 H2]. apply In_bucket in H1 as [_ H1], H2 as [_ H2].
    rewrite H1 in H2. discriminate.
  - apply buckets_permutation.
  - intros e. rewrite !In_bucket. tauto.
  - intros e Hu Hn Hl. rewrite !In_bucket. tauto.
Qed.

(** ** Handlers *)

Ltac run_handler :=
  unfold invoke, bind, try_catch, finally, setRawText, setEmails, updateEmails,
    setLoading, setError, setModalOpen, setApproveStatus, setModalDraft,
    setModalEmailId, setModalLoading, setFollowUp, setSentLog, setSentLogOpen,
    setSentLogLoading, setSentJustNow, setLastAnalyzedText, setTimeout, set,
    fetch, json, ret, throw; simpl.

Lemma issued_app (w : World) l ui' net' timers' :
  issued w {| ui := ui'; net := net'; log := log w ++ l; timers := timers' |} = l.
Proof.
  unfold issued. simpl. rewrite skipn_app, skipn_all, Nat.sub_diag. reflexivity.
Qed.

(** C10. When no target email is recorded ([modalEmailId] is null),
    [approveAndSend] returns at once in both revisions: the promise resolves,
    and the component state, the request log and the timers are what they
    were, so no approve request was sent and the approve status is
    untouched. *)
Theorem approveAndSend_without_target (w : World) :
  modalEmailId (ui w) = None ->
  invoke Earlier.approveAndSend w = (Normal tt, w)
  /\ invoke Later.approveAndSend w = (Normal tt, w)
  /\ issued w (snd (invoke Later.approveAndSend w)) = [].
Proof.
  intros H. unfold invoke, Earlier.approveAndSend, Later.approveAndSend.
  rewrite H. simpl. repeat split.
  unfold issued. apply skipn_all.
Qed.

Lemma approveAndSend_without_target_witness :
  modalEmailId (ui (world_of initial_state server_down)) = None
  /\ invoke Later.approveAndSend (world_of initial_state server_down)
     = (Normal tt, world_of initial_state server_down).
Proof.
  split; [reflexivity|].
  apply (approveAndSend_without_target (world_of initial_state server_down)).
  reflexivity.
Defined.

Ltac case_net :=
  repeat match goal with
    | |- context [match net ?w ?n ?r with _ => _ end] =>
        let E := fresh "Enet" in
        destruct (net w n r) as [[? [?|]]|] eqn:E; simpl
    | H : context [match net ?w ?n ?r with _ => _ end] |- _ =>
        let E := fresh "Enet" in
        destruct (net w n r) as [[? [?|]]|] eqn:E; simpl in H
    end.

Lemma removed_absent (id : Z) (es : list EmailItem.t) e :
  EmailItem.id e = id ->
  ~ In e (filter (fun e => negb (Z.eqb (EmailItem.id e) id)) es).
Proof.
  intros <- H. apply filter_In in H as [_ H]. now rewrite Z.eqb_refl in H.
Qed.

Lemma bucket_subset (s : State) e :
  In e (urgentEmails s) \/ In e (normalEmails s) \/ In e (lowEmails s) ->
  In e (emails s).
Proof.
  unfold urgentEmails, normalEmails, lowEmails. rewrite !In_bucket. tauto.
Qed.

(** The callback of the timer closes the modal, whatever the state then. *)
Lemma close_callback s : modalOpen (with_modalOpen false s) = false.
Proof. reflexivity. Qed.

(** C6. After a successful [approveAndSend] (the approve request yields a
    parsed body), in both revisions: every email with the approved id is gone
    from the collection, hence from the three buckets; the approve status is
    the message of the response, or "Marked as sent (simulated)." without
    one; the "just sent" flag is set; and one timer was added, with delay 800,
    whose callback closes the modal. *)
Theorem approveAndSend_success (w : World) (id : Z) (o : bool) (data : Data.t) :
  modalEmailId (ui w) = Some id ->
  net w (length (log w))
    (POST_emails_reply_approve id (intent_of (emails (ui w)) id)
       (modalDraft (ui w)))
  = Responded {| ok := o; body := Some data |} ->
  forall r,
    r = invoke Earlier.approveAndSend w \/ r = invoke Later.approveAndSend w ->
    fst r = Normal tt
    /\ emails (ui (snd r))
       = filter (fun e => negb (Z.eqb (EmailItem.id e) id)) (emails (ui w))
    /\ (forall e, EmailItem.id e = id ->
          ~ In e (emails (ui (snd r))) /\ ~ In e (urgentEmails (ui (snd r)))
          /\ ~ In e (normalEmails (ui (snd r)))
          /\ ~ In e (lowEmails (ui (snd r))))
    /\ approveStatus (ui (snd r))
       = Some (nullish (Data.message data) (js "Marked as sent (simulated)."))
    /\ sentJustNow (ui (snd r)) = true
    /\ timers (snd r) = timers w ++ [(800%N, with_modalOpen false)]
    /\ (forall s, modalOpen (with_modalOpen false s) = false).
Proof.
  intros Hid Hnet r Hr.
  assert (H : fst r = Normal tt
              /\ emails (ui (snd r))
                 = filter (fun e => negb (Z.eqb (EmailItem.id e) id))
                     (emails (ui w))
              /\ approveStatus (ui (snd r))
                 = Some (nullish (Data.message data)
                           (js "Marked as sent (simulated)."))
              /\ sentJustNow (ui (snd r)) = true
              /\ timers (snd r) = timers w ++ [(800%N, with_modalOpen false)]).
  { destruct Hr as [-> | ->].
    - unfold Earlier.approveAndSend, invoke. rewrite Hid. run_handler.
      rewrite Hnet. simpl. repeat split.
    - unfold Later.approveAndSend, invoke. rewrite Hid. run_handler.
      rewrite Hnet. simpl.
      destruct (sentLogOpen (ui w)); [|simpl; repeat split].
      unfold loadSentLog. run_handler. case_net; repeat split. }
  destruct H as (H1 & H2 & H3 & H4 & H5).
  split; [exact H1|]. split; [exact H2|]. split.
  - intros e He.
    assert (Hout : ~ In e (emails (ui (snd r)))).
    { rewrite H2. now apply removed_absent. }
    split; [exact Hout|].
    pose proof (bucket_subset (ui (snd r)) e) as Hsub. tauto.
  - split; [exact H3|]. split; [exact H4|]. split; [exact H5|].
    apply close_callback.
Qed.

Lemma approveAndSend_success_witness :
  let w := world_of modal_state (server_ok (reply_data None None)) in
  modalEmailId (ui w) = Some 7%Z
  /\ emails (ui (snd (invoke Later.approveAndSend w))) = [other_email]
  /\ approveStatus (ui (snd (invoke Later.approveAndSend w)))
     = Some (js "Marked as sent (simulated).").
Proof.
  intros w.
  pose proof (approveAndSend_success w 7%Z true (reply_data None None)
                eq_refl eq_refl (invoke Later.approveAndSend w)
                (or_intror eq_refl)) as H.
  split; [reflexivity|]. split; [apply H | apply H].
Defined.

(** C7. When the approve request fails (the fetch rejects, or the body does
    not parse), in both revisions the handler resolves with the approve status
    "Failed to approve/send." and nothing else changed: the collection, the
    open modal, the "just sent" flag and the timers are as before.  The
    approve button is disabled exactly while the modal is loading, the draft
    is blank, or the reply was just sent; so a button that was enabled stays
    enabled for a retry. *)
Theorem approveAndSend_failure (w : World) (id : Z) :
  modalEmailId (ui w) = Some id ->
  fetch_failed
    (net w (length (log w))
       (POST_emails_reply_approve id (intent_of (emails (ui w)) id)
          (modalDraft (ui w)))) = true ->
  forall r,
    r = invoke Earlier.approveAndSend w \/ r = invoke Later.approveAndSend w ->
    fst r = Normal tt
    /\ ui (snd r) = with_approveStatus (Some (js "Failed to approve/send.")) (ui w)
    /\ approveStatus (ui (snd r)) = Some (js "Failed to approve/send.")
    /\ emails (ui (snd r)) = emails (ui w)
    /\ modalOpen (ui (snd r)) = modalOpen (ui w)
    /\ timers (snd r) = timers w
    /\ sentJustNow (ui (snd r)) = sentJustNow (ui w)
    /\ approve_disabled (ui (snd r)) = approve_disabled (ui w)
    /\ (forall s, approve_disabled s = true
                  <-> modalLoading s = true \/ trim (modalDraft s) = []
                      \/ sentJustNow s = true).
Proof.
  intros Hid Hnet r Hr.
  assert (H : fst r = Normal tt
              /\ ui (snd r)
                 = with_approveStatus (Some (js "Failed to approve/send."))
                     (ui w)
              /\ timers (snd r) = timers w).
  { destruct Hr as [-> | ->].
    - unfold Earlier.approveAndSend, invoke. rewrite Hid. run_handler.
      revert Hnet. case_net; intros Hnet; try discriminate; repeat split.
    - unfold Later.approveAndSend, invoke. rewrite Hid. run_handler.
      revert Hnet. case_net; intros Hnet; try discriminate; repeat split. }
  destruct H as (H1 & H2 & H3).
  split; [exact H1|]. split; [exact H2|]. rewrite H2.
  repeat (split; [first [reflexivity | exact H3]|]).
  intros s. unfold approve_disabled. rewrite !orb_true_iff.
  destruct (trim (modalDraft s)) as [|c t]; [tauto|].
  split; [intros [[H|H]|H]; [tauto | discriminate | tauto]|].
  intros [H|[H|H]]; [tauto | discriminate | tauto].
Qed.

Lemma approveAndSend_failure_witness :
  let w := world_of modal_state server_down in
  modalEmailId (ui w) = Some 7%Z
  /\ approveStatus (ui (snd (invoke Later.approveAndSend w)))
     = Some (js "Failed to approve/send.")
  /\ approve_disabled (ui (snd (invoke Later.approveAndSend w))) = false.
Proof.
  intros w.
  pose proof (approveAndSend_failure w 7%Z eq_refl eq_refl
                (invoke Later.approveAndSend w) (or_intror eq_refl)) as H.
  split; [reflexivity|]. split; [apply H|].
  destruct H as (_ & _ & _ & _ & _ & _ & _ & H & _).
  rewrite H. reflexivity.
Defined.

(** C8, as stated, fails on a response whose [draft] is present and empty:
    the handler tests the draft for truthiness, so it shows the message
    instead of the (empty) draft. *)
Lemma suggestReply_empty_draft_counterexample :
  let data := reply_data (Some (js "")) (Some (js "See you then.")) in
  let w := world_of initial_state (server_ok data) in
  let w' := snd (invoke (fun c => suggestReply c sample_email) w) in
  issued w w'
  = [(POST_emails_reply_suggest (EmailItem.content sample_email)
        (EmailItem.urgency sample_email) (EmailItem.intent sample_email),
      Responded {| ok := true; body := Some data |})]
  /\ draft_as_specified data = js ""
  /\ modalDraft (ui w') = js "See you then."
  /\ modalDraft (ui w') <> draft_as_specified data.
Proof.
  simpl. repeat split. discriminate.
Qed.

(** C8, amended. [suggestReply] always resolves with the modal loading flag
    false and the shared error slot null.  When the request yields a parsed
    body, the draft field is the response's [draft] if that is present and not
    empty, else the response's [message] if present, else "No draft
    available."; when the request fails, the draft field itself is "Failed to
    get reply suggestion.". *)
Theorem suggestReply_draft (w : World) (email : EmailItem.t) :
  let res :=
    net w (length (log w))
      (POST_emails_reply_suggest (EmailItem.content email)
         (EmailItem.urgency email) (EmailItem.intent email)) in
  let r := invoke (fun c => suggestReply c email) w in
  fst r = Normal tt
  /\ modalLoading (ui (snd r)) = false
  /\ error (ui (snd r)) = None
  /\ modalDraft (ui (snd r))
     = match res with
       | Responded {| body := Some data |} =>
           match Data.draft data with
           | Some (c :: d) => c :: d
           | _ => nullish (Data.message data) (js "No draft available.")
           end
       | _ => js "Failed to get reply suggestion."
       end.
Proof.
  unfold suggestReply. run_handler. case_net; [|repeat split..].
  match goal with d : Data.t |- _ => destruct (Data.draft d) as [[|x rest]|] end;
    simpl; repeat split.
Qed.

(** ** Analysis *)

Ltac simpl_issued H :=
  unfold issued in H; simpl in H; rewrite <- ?app_assoc in H;
  rewrite ?skipn_app, ?skipn_all, ?Nat.sub_diag in H; simpl in H.

Lemma jsstring_eqb_neq a b : jsstring_eqb a b = false <-> a <> b.
Proof.
  rewrite <- jsstring_eqb_eq. destruct (jsstring_eqb a b); split; congruence.
Qed.

(** C9. If the analyze request itself fails (the fetch rejects, or the body
    does not parse), then in both revisions the handler resolves with the email
    collection as it was, the shared error slot holding "Failed to analyze
    emails.", and the loading flag false.  The analyze request is the first
    request of the run in the earlier revision on a text that is not blank and
    in the later revision on an unchanged text, and the second in the later
    revision once the clear request for a changed text came back OK. *)
Theorem analyzeEmails_failure (w : World) (r : Completion unit * World) :
  (r = invoke Earlier.analyzeEmails w
   /\ trim (rawText (ui w)) <> []
   /\ fetch_failed
        (net w (length (log w)) (POST_emails_analyze (rawText (ui w)))) = true)
  \/ (r = invoke Later.analyzeEmails w
      /\ rawText (ui w) = lastAnalyzedText (ui w)
      /\ fetch_failed
           (net w (length (log w)) (POST_emails_analyze (rawText (ui w))))
         = true)
  \/ (r = invoke Later.analyzeEmails w
      /\ rawText (ui w) <> lastAnalyzedText (ui w)
      /\ (exists b, net w (length (log w)) POST_emails_sent_clear
                    = Responded {| ok := true; body := b |})
      /\ fetch_failed
           (net w (S (length (log w))) (POST_emails_analyze (rawText (ui w))))
         = true) ->
  fst r = Normal tt
  /\ emails (ui (snd r)) = emails (ui w)
  /\ error (ui (snd r)) = Some (js "Failed to analyze emails.")
  /\ error (ui (snd r)) <> None
  /\ loading (ui (snd r)) = false.
Proof.
  intros [(-> & Hne & Hfail) | [(-> & Heq & Hfail) | (-> & Hne & [b Hclear] & Hfail)]];
    revert Hfail.
  - unfold Earlier.analyzeEmails, invoke.
    destruct (trim (rawText (ui w))) as [|c t]; [congruence|].
    run_handler. case_net; intros Hfail; try discriminate;
      repeat split; discriminate.
  - apply jsstring_eqb_eq in Heq.
    unfold Later.analyzeEmails, invoke. run_handler. rewrite Heq. simpl.
    case_net; intros Hfail; try discriminate; repeat split; discriminate.
  - apply jsstring_eqb_neq in Hne.
    unfold Later.analyzeEmails, invoke. run_handler. rewrite Hne. simpl.
    rewrite Hclear. simpl. rewrite length_app, Nat.add_comm. simpl.
    case_net; intros Hfail; try discriminate; repeat split; discriminate.
Qed.

Lemma analyzeEmails_failure_witness :
  let w := world_of repasted_state server_analysis_down in
  let r := invoke Later.analyzeEmails w in
  fst r = Normal tt
  /\ emails (ui (snd r)) = [sample_email; other_email]
  /\ error (ui (snd r)) = Some (js "Failed to analyze emails.")
  /\ loading (ui (snd r)) = false.
Proof.
  intros w r.
  assert (Hne : rawText (ui w) <> lastAnalyzedText (ui w)) by discriminate.
  pose proof (analyzeEmails_failure w r
                (or_intror (or_intror
                   (conj eq_refl
                      (conj Hne
                         (conj (ex_intro _ (Some (analysis_data [])) eq_refl)
                            eq_refl))))))
    as (H1 & H2 & H3 & _ & H5).
  repeat split; assumption.
Defined.

(** The later [analyzeEmails] when the text changed and the preliminary clear
    request fails: both awaits of the clear sit before the [try], so the
    promise rejects and the loading flag, set on entry, is never reset; the
    analyze request is not sent. *)
Lemma analyzeEmails_clear_failure (w : World) :
  rawText (ui w) <> lastAnalyzedText (ui w) ->
  (net w (length (log w)) POST_emails_sent_clear = Rejected
   \/ exists b, net w (length (log w)) POST_emails_sent_clear
                = Responded {| ok := false; body := b |}) ->
  let r := invoke Later.analyzeEmails w in
  (exists e, fst r = Throw e)
  /\ loading (ui (snd r)) = true
  /\ issued w (snd r)
     = [(POST_emails_sent_clear, net w (length (log w)) POST_emails_sent_clear)].
Proof.
  intros Hne Hnet. apply jsstring_eqb_neq in Hne.
  unfold Later.analyzeEmails, invoke. run_handler. rewrite Hne. simpl.
  destruct Hnet as [Hnet | [b Hnet]]; rewrite Hnet; simpl;
    (split; [eexists; reflexivity|]); (split; [reflexivity|]);
    apply issued_app.
Qed.

(** C1 (the code departs from the claim). The later [analyzeEmails] on
    freshly pasted text while the service is unreachable: the preliminary clear
    request rejects, the handler's promise rejects with it, and the loading
    flag is still true when the handler has finished. *)
Theorem analyzeEmails_clear_rejected_keeps_loading :
  let w := world_of pasted_state server_down in
  let r := invoke Later.analyzeEmails w in
  rawText (ui w) <> lastAnalyzedText (ui w)
  /\ issued w (snd r) = [(POST_emails_sent_clear, Rejected)]
  /\ fst r = Throw FetchFailed
  /\ loading (ui (snd r)) = true.
Proof.
  simpl. repeat split. discriminate.
Qed.

(** Whenever the later [analyzeEmails] gets past the preliminary clear, the
    loading flag is false at the end. *)
Lemma analyzeEmails_loading_cleared (w : World) :
  let r := invoke Later.analyzeEmails w in
  (rawText (ui w) = lastAnalyzedText (ui w)
   \/ exists b, net w (length (log w)) POST_emails_sent_clear
                = Responded {| ok := true; body := b |}) ->
  fst r = Normal tt /\ loading (ui (snd r)) = false.
Proof.
  unfold Later.analyzeEmails, invoke. run_handler. intros [Heq | [b Hnet]].
  - apply jsstring_eqb_eq in Heq. rewrite Heq. simpl. case_net; repeat split.
  - destruct (jsstring_eqb (rawText (ui w)) (lastAnalyzedText (ui w))); simpl.
    + case_net; repeat split.
    + rewrite Hnet. simpl. case_net; repeat split.
Qed.

(** C2, amended. The later [analyzeEmails] sends the outbox-clear request
    exactly when the raw text differs from [lastAnalyzedText] under [!==].
    When it differs, the clear request is the first request of the run; as
    soon as it comes back OK, the local outbox mirror is emptied and
    [lastAnalyzedText] becomes the raw text, before the analyze request that
    follows and whatever that request yields.  When the two are equal, the
    analyze request is the only request of the run. *)
Theorem analyzeEmails_clear_iff_text_changed (w : World) :
  let r := invoke Later.analyzeEmails w in
  let raw := rawText (ui w) in
  ((exists res, In (POST_emails_sent_clear, res) (issued w (snd r)))
   <-> raw <> lastAnalyzedText (ui w))
  /\ (raw <> lastAnalyzedText (ui w) ->
      exists rest,
        issued w (snd r)
        = (POST_emails_sent_clear,
           net w (length (log w)) POST_emails_sent_clear) :: rest
        /\ (forall b,
              net w (length (log w)) POST_emails_sent_clear
              = Responded {| ok := true; body := b |} ->
              sentLog (ui (snd r)) = []
              /\ lastAnalyzedText (ui (snd r)) = raw
              /\ exists res, rest = [(POST_emails_analyze raw, res)]))
  /\ (raw = lastAnalyzedText (ui w) ->
      (exists res, issued w (snd r) = [(POST_emails_analyze raw, res)])
      /\ lastAnalyzedText (ui (snd r)) = raw).
Proof.
  unfold Later.analyzeEmails, invoke. run_handler.
  destruct (jsstring_eqb (rawText (ui w)) (lastAnalyzedText (ui w))) eqn:E; simpl.
  - apply jsstring_eqb_eq in E. split; [|split]; [|tauto|].
    + split; [|tauto]. intros [res Hin]. revert Hin.
      case_net; intros Hin; simpl_issued Hin; destruct Hin as [Hin|[]];
        discriminate.
    + intros _. case_net; (split; [eexists; apply issued_app|]);
        simpl; symmetry; exact E.
  - apply jsstring_eqb_neq in E. split; [|split]; [| |tauto].
    + split; [intros _; exact E|]. intros _.
      exists (net w (length (log w)) POST_emails_sent_clear).
      destruct (net w (length (log w)) POST_emails_sent_clear)
        as [[[|] b]|] eqn:Enet0; simpl; case_net;
        unfold issued; simpl; rewrite <- ?app_assoc;
        rewrite skipn_app, skipn_all, Nat.sub_diag; simpl; auto.
    + intros _.
      destruct (net w (length (log w)) POST_emails_sent_clear)
        as [[[|] b]|] eqn:Enet0; simpl.
      * case_net; eexists;
          (split; [unfold issued; simpl; rewrite <- ?app_assoc;
                   rewrite skipn_app, skipn_all, Nat.sub_diag; simpl;
                   reflexivity|]);
          intros b' _; repeat split; eexists; reflexivity.
      * eexists. split; [apply issued_app|]. intros b' Hb. discriminate.
      * eexists. split; [apply issued_app|]. intros b' Hb. discriminate.
Qed.

(** C2, as stated, fails when an analysis fails after its clear succeeded:
    [lastAnalyzedText] is recorded before the analyze request is sent.  Pasted
    text is analyzed twice against a service whose analysis endpoint is down.
    After the first run no text has been analyzed successfully, so the raw
    text differs from the last successfully analyzed one; the second run still
    sends no clear request. *)
Lemma analyzeEmails_retry_counterexample :
  let w0 := world_of pasted_state server_analysis_down in
  let w1 := snd (invoke Later.analyzeEmails w0) in
  let w2 := snd (invoke Later.analyzeEmails w1) in
  issued w0 w1
  = [(POST_emails_sent_clear,
      Responded {| ok := true; body := Some (analysis_data []) |});
     (POST_emails_analyze (js "hello"), Rejected)]
  /\ error (ui w1) = Some (js "Failed to analyze emails.")
  /\ loading (ui w1) = false
  /\ rawText (ui w1) = js "hello"
  /\ last_successfully_analyzed (log w1) (rawText initial_state) = js ""
  /\ rawText (ui w1) <> last_successfully_analyzed (log w1) (rawText initial_state)
  /\ issued w1 w2 = [(POST_emails_analyze (js "hello"), Rejected)]
  /\ ~ (exists res, In (POST_emails_sent_clear, res) (issued w1 w2)).
Proof.
  intros w0 w1 w2.
  assert (H2 : issued w1 w2 = [(POST_emails_analyze (js "hello"), Rejected)])
    by (vm_compute; reflexivity).
  split; [vm_compute; reflexivity|]. split; [vm_compute; reflexivity|].
  split; [vm_compute; reflexivity|]. split; [vm_compute; reflexivity|].
  split; [vm_compute; reflexivity|]. split; [vm_compute; discriminate|].
  split; [exact H2|]. rewrite H2. intros [res [H|[]]]. discriminate.
Qed.

(** * Further properties of the component *)

(** ** More on the text clean-up *)

Section SqueezeContent.
Variable cls : char16 -> bool.
Variable lo : nat.
Variable rc : char16.
Hypothesis lo_pos : 1 <= lo.
Hypothesis short_run :
  forall c, cls c = true -> lo <= 1 \/ (lo <= 2 /\ c = rc).

Local Abbreviation out := (replace_all cls lo [rc]).

Lemma out_length s : length (out s) <= length s.
Proof.
  revert s. apply (scan_ind cls); [|intros c s E IH|intros c s E IH].
  - now rewrite replace_all_nil.
  - rewrite replace_all_outside by assumption. simpl. lia.
  - rewrite (out_inside cls lo rc lo_pos short_run c s E). simpl.
    pose proof (length_drop_while cls s). lia.
Qed.

(** What lies outside a class [ws] that contains both [cls] and [rc] is
    copied, in order. *)
Lemma out_keeps_outside (ws : char16 -> bool) s :
  (forall c, cls c = true -> ws c = true) -> ws rc = true ->
  filter (fun c => negb (ws c)) (out s) = filter (fun c => negb (ws c)) s.
Proof.
  intros Hsub Hrc. revert s.
  apply (scan_ind cls); [|intros c s E IH|intros c s E IH].
  - now rewrite replace_all_nil.
  - rewrite replace_all_outside by assumption. simpl. now rewrite IH.
  - rewrite (out_inside cls lo rc lo_pos short_run c s E). simpl.
    rewrite Hrc, (Hsub c E). simpl. rewrite IH.
    rewrite <- (take_drop_while cls s) at 2. rewrite filter_app.
    replace (filter (fun c => negb (ws c)) (take_while cls s)) with (@nil char16);
      [reflexivity|].
    symmetry. pose proof (take_while_all cls s) as Hall.
    induction Hall as [|x l Hx _ IHl]; simpl; [reflexivity|].
    now rewrite (Hsub x Hx).
Qed.
End SqueezeContent.

Lemma filter_all_space l :
  Forall (fun c => is_js_space c = true) l ->
  filter (fun c => negb (is_js_space c)) l = [].
Proof.
  induction 1 as [|x l Hx _ IH]; simpl; [reflexivity|]. now rewrite Hx.
Qed.

Lemma filter_none_space l :
  filter (fun c => negb (is_js_space c)) l = [] ->
  Forall (fun c => is_js_space c = true) l.
Proof.
  induction l as [|x l IH]; simpl; [constructor|].
  destruct (is_js_space x) eqn:E; simpl; [|discriminate].
  intros H. constructor; [exact E | now apply IH].
Qed.

Lemma trim_keeps_text s :
  filter (fun c => negb (is_js_space c)) (trim s)
  = filter (fun c => negb (is_js_space c)) s.
Proof.
  rewrite (trim_split s) at 2. rewrite !filter_app.
  rewrite (filter_all_space (take_while is_js_space s)) by apply take_while_all.
  rewrite (filter_all_space (rev _)) by apply Forall_rev, take_while_all.
  now rewrite app_nil_r.
Qed.

Lemma trim_length s : length (trim s) <= length s.
Proof. rewrite (trim_split s) at 2. rewrite !length_app. lia. Qed.

Lemma trim_nil_iff s :
  trim s = [] <-> Forall (fun c => is_js_space c = true) s.
Proof.
  split; intros H.
  - apply filter_none_space. rewrite <- trim_keeps_text, H. reflexivity.
  - destruct (trim s) as [|c t] eqn:E; [reflexivity|].
    pose proof (trim_head s c t E) as Hc.
    pose proof (trim_keeps_text s) as Hk.
    rewrite (filter_all_space s H), E in Hk. simpl in Hk.
    rewrite Hc in Hk. discriminate.
Qed.

Lemma lf_is_space c : is_lf c = true -> is_js_space c = true.
Proof. intros H. apply is_lf_only in H. now subst. Qed.

Lemma sp_tab_is_space c : is_sp_tab c = true -> is_js_space c = true.
Proof.
  unfold is_sp_tab. rewrite orb_true_iff, !N.eqb_eq. now intros [-> | ->].
Qed.

Lemma cleaned_keeps_text s :
  filter (fun c => negb (is_js_space c)) (cleaned s)
  = filter (fun c => negb (is_js_space c)) s.
Proof.
  unfold cleaned. change (js newline) with [LF]. change (js " ") with [SP].
  rewrite trim_keeps_text.
  rewrite (out_keeps_outside is_sp_tab 1 SP); [| lia | | apply sp_tab_is_space
                                               | reflexivity].
  - rewrite (out_keeps_outside is_lf 2 LF);
      [reflexivity | lia | | apply lf_is_space | reflexivity].
    intros c Hc. right. split; [lia | now apply is_lf_only].
  - intros c _. left. lia.
Qed.

(** X1. What [cleanFormatting] writes back never has two line feeds in a row,
    two spaces in a row, a tab, or whitespace at either end. *)
Theorem cleaned_output_shape (s : jsstring) :
  (forall a c d b, cleaned s = a ++ c :: d :: b ->
     ~ (c = LF /\ d = LF) /\ ~ (c = SP /\ d = SP))
  /\ ~ In TAB (cleaned s)
  /\ (forall c t, cleaned s = c :: t -> is_js_space c = false)
  /\ (forall c t, cleaned s = t ++ [c] -> is_js_space c = false).
Proof.
  destruct (cleaned_shape s) as ([Hlf _] & [Hsp Htab] & Hhd & Hlast).
  split; [|split; [|split; assumption]].
  - intros a c d b E. split; intros [-> ->].
    + now pose proof (Hlf a LF LF b E eq_refl).
    + now pose proof (Hsp a SP SP b E eq_refl).
  - intros Hin. rewrite Forall_forall in Htab.
    now pose proof (Htab TAB Hin eq_refl).
Qed.

(** X2. The texts [cleanFormatting] leaves as they are, are exactly those
    without two neighbouring line feeds, without two neighbouring space or tab
    code units, without a tab, and without whitespace at either end. *)
Theorem cleaned_fixed_point_iff (s : jsstring) :
  cleaned s = s
  <-> NoAdj is_lf s /\ NoAdj is_sp_tab s /\ ~ In TAB s
      /\ (forall c t, s = c :: t -> is_js_space c = false)
      /\ (forall c t, s = t ++ [c] -> is_js_space c = false).
Proof.
  split.
  - intros E. destruct (cleaned_shape s) as ([Hlf _] & [Hsp Htab] & Hhd & Hlast).
    rewrite E in *. repeat (split; [assumption|]). split; [|split; assumption].
    intros Hin. rewrite Forall_forall in Htab.
    now pose proof (Htab TAB Hin eq_refl).
  - intros (Hlf & Hsp & Htab & Hhd & Hlast). apply cleaned_fixpoint; try assumption.
    + split; [exact Hlf|]. apply Forall_forall. intros c _. apply is_lf_only.
    + split; [exact Hsp|]. apply Forall_forall. intros c Hin Hc.
      unfold is_sp_tab in Hc. rewrite orb_true_iff, !N.eqb_eq in Hc.
      destruct Hc as [-> | ->]; [reflexivity | contradiction].
Qed.

(** X3. [cleanFormatting] only touches whitespace: the code units that are
    not whitespace are the same, in the same order, before and after; and the
    text never gets longer. *)
Theorem cleaned_keeps_text_and_shrinks (s : jsstring) :
  filter (fun c => negb (is_js_space c)) (cleaned s)
  = filter (fun c => negb (is_js_space c)) s
  /\ length (cleaned s) <= length s.
Proof.
  split; [apply cleaned_keeps_text|].
  unfold cleaned. change (js newline) with [LF]. change (js " ") with [SP].
  pose proof (trim_length
                (replace_all is_sp_tab 1 [SP] (replace_all is_lf 2 [LF] s))).
  assert (H1 : length (replace_all is_lf 2 [LF] s) <= length s).
  { apply out_length; [lia|]. intros c Hc. right. split; [lia|].
    now apply is_lf_only. }
  assert (H2 : length (replace_all is_sp_tab 1 [SP] (replace_all is_lf 2 [LF] s))
               <= length (replace_all is_lf 2 [LF] s)).
  { apply out_length; [lia|]. intros c _. left. lia. }
  lia.
Qed.

(** X4. [cleanFormatting] yields the empty text exactly for a text of
    whitespace only, which is exactly when [trim] does; so cleaning never
    changes whether the text is blank. *)
Theorem cleaned_blank_iff (s : jsstring) :
  (cleaned s = [] <-> Forall (fun c => is_js_space c = true) s)
  /\ (trim (cleaned s) = [] <-> trim s = []).
Proof.
  assert (H : cleaned s = [] <-> Forall (fun c => is_js_space c = true) s).
  { split; intros H.
    - apply filter_none_space. rewrite <- cleaned_keeps_text, H. reflexivity.
    - destruct (cleaned s) as [|c t] eqn:E; [reflexivity|].
      destruct (cleaned_shape s) as (_ & _ & Hhd & _).
      pose proof (Hhd c t E) as Hc.
      pose proof (cleaned_keeps_text s) as Hk.
      rewrite (filter_all_space s H), E in Hk. simpl in Hk.
      rewrite Hc in Hk. discriminate. }
  split; [exact H|].
  rewrite !trim_nil_iff, <- H. split; intros H'.
  - apply trim_nil_iff in H'.
    destruct (cleaned_shape s) as (_ & _ & Hhd & Hlast).
    now rewrite (trim_stable (cleaned s) Hhd Hlast) in H'.
  - rewrite H'. constructor.
Qed.

(** ** More on the handlers *)

Ltac issued_now :=
  unfold issued; simpl; rewrite <- ?app_assoc;
  rewrite ?skipn_app, ?skipn_all, ?Nat.sub_diag; simpl.

(** X5. The earlier [analyzeEmails] on a blank text (empty, or whitespace
    only) sends nothing and only sets the validation message: the loading flag
    and everything else stay as they were.  On any other text it resolves
    after exactly one request, the analyze request carrying the raw text as
    typed (neither trimmed nor cleaned), with the loading flag false, the
    outbox panel closed and the local mirror emptied (no request goes to the
    outbox of the service). *)
Theorem earlier_analyzeEmails_guard (w : World) :
  let r := invoke Earlier.analyzeEmails w in
  (Forall (fun c => is_js_space c = true) (rawText (ui w))
   /\ r = (Normal tt,
           {| ui := with_error (Some (js "Please paste emails or load demo data."))
                      (ui w);
              net := net w; log := log w; timers := timers w |})
   /\ issued w (snd r) = [])
  \/ (~ Forall (fun c => is_js_space c = true) (rawText (ui w))
      /\ fst r = Normal tt
      /\ issued w (snd r)
         = [(POST_emails_analyze (rawText (ui w)),
             net w (length (log w)) (POST_emails_analyze (rawText (ui w))))]
      /\ loading (ui (snd r)) = false
      /\ sentLogOpen (ui (snd r)) = false
      /\ sentLog (ui (snd r)) = []).
Proof.
  unfold Earlier.analyzeEmails, invoke.
  destruct (trim (rawText (ui w))) as [|c t] eqn:E.
  - left. split; [now apply trim_nil_iff|]. split; [reflexivity|].
    unfold setError, set, issued. simpl. apply skipn_all.
  - right. split; [intros H; apply trim_nil_iff in H; congruence|].
    run_handler. case_net; (split; [reflexivity|]);
      (split; [issued_now; reflexivity|]); repeat split.
Qed.

(** X6. When the analyze request yields a parsed body carrying an [emails]
    array, whatever its status (the code never looks at it), both revisions
    resolve with the collection replaced wholesale by the response's [emails],
    the follow-up by the response's [follow_up] (null without one), the error
    slot null, the loading flag false, and the outbox panel closed with an
    empty mirror. *)
Theorem analyzeEmails_success (w : World) (r : Completion unit * World)
    (o : bool) (data : Data.t) :
  (r = invoke Earlier.analyzeEmails w
   /\ trim (rawText (ui w)) <> []
   /\ net w (length (log w)) (POST_emails_analyze (rawText (ui w)))
      = Responded {| ok := o; body := Some data |})
  \/ (r = invoke Later.analyzeEmails w
      /\ rawText (ui w) = lastAnalyzedText (ui w)
      /\ net w (length (log w)) (POST_emails_analyze (rawText (ui w)))
         = Responded {| ok := o; body := Some data |})
  \/ (r = invoke Later.analyzeEmails w
      /\ rawText (ui w) <> lastAnalyzedText (ui w)
      /\ (exists b, net w (length (log w)) POST_emails_sent_clear
                    = Responded {| ok := true; body := b |})
      /\ net w (S (length (log w))) (POST_emails_analyze (rawText (ui w)))
         = Responded {| ok := o; body := Some data |}) ->
  fst r = Normal tt
  /\ emails (ui (snd r)) = Data.emails data
  /\ followUp (ui (snd r)) = Data.follow_up data
  /\ error (ui (snd r)) = None
  /\ loading (ui (snd r)) = false
  /\ sentLogOpen (ui (snd r)) = false
  /\ sentLog (ui (snd r)) = [].
Proof.
  intros [(-> & Hne & Hnet) | [(-> & Heq & Hnet) | (-> & Hne & [b Hclear] & Hnet)]].
  - unfold Earlier.analyzeEmails, invoke.
    destruct (trim (rawText (ui w))) as [|c t]; [congruence|].
    run_handler. rewrite Hnet. simpl. repeat split.
  - apply jsstring_eqb_eq in Heq.
    unfold Later.analyzeEmails, invoke. run_handler. rewrite Heq. simpl.
    rewrite Hnet. simpl. repeat split.
  - apply jsstring_eqb_neq in Hne.
    unfold Later.analyzeEmails, invoke. run_handler. rewrite Hne. simpl.
    rewrite Hclear. simpl. rewrite length_app, Nat.add_comm. simpl.
    rewrite Hnet. simpl. repeat split.
Qed.

Lemma analyzeEmails_success_witness :
  let w := world_of repasted_state (server_ok (analysis_data [sample_email])) in
  let r := invoke Later.analyzeEmails w in
  emails (ui w) = [sample_email; other_email]
  /\ emails (ui (snd r)) = [sample_email]
  /\ loading (ui (snd r)) = false.
Proof.
  intros w r.
  assert (Hne : rawText (ui w) <> lastAnalyzedText (ui w)) by discriminate.
  pose proof (analyzeEmails_success w r true (analysis_data [sample_email])
                (or_intror (or_intror
                   (conj eq_refl
                      (conj Hne
                         (conj (ex_intro _
                                  (Some (analysis_data [sample_email])) eq_refl)
                            eq_refl))))))
    as (_ & H2 & _ & _ & H5 & _).
  split; [reflexivity|]. split; assumption.
Defined.

(** X7. The promise of the later [analyzeEmails] rejects exactly when the
    text differs from [lastAnalyzedText] and the clear request is rejected or
    answered with a non-OK status; and the loading flag is left true exactly
    when the promise rejects. *)
Theorem later_analyzeEmails_rejects_iff (w : World) :
  let r := invoke Later.analyzeEmails w in
  let clear := net w (length (log w)) POST_emails_sent_clear in
  ((exists e, fst r = Throw e)
   <-> rawText (ui w) <> lastAnalyzedText (ui w)
       /\ (clear = Rejected \/ exists rsp, clear = Responded rsp /\ ok rsp = false))
  /\ (loading (ui (snd r)) = true <-> exists e, fst r = Throw e).
Proof.
  unfold Later.analyzeEmails, invoke. run_handler.
  destruct (jsstring_eqb (rawText (ui w)) (lastAnalyzedText (ui w))) eqn:E; simpl.
  - apply jsstring_eqb_eq in E.
    case_net; (split; split);
      try (intros [e He]; discriminate); try discriminate; try tauto.
  - apply jsstring_eqb_neq in E.
    destruct (net w (length (log w)) POST_emails_sent_clear)
      as [[[|] b]|] eqn:Enet0; simpl.
    + case_net; (split; split);
        try (intros [e He]; discriminate); try discriminate;
        intros [_ [H|[rsp [H Hok]]]]; try discriminate;
        injection H as <-; discriminate.
    + split; split; try (intros _; eexists; reflexivity); try reflexivity.
      intros _. split; [exact E|]. right. eexists. split; reflexivity.
    + split; split; try (intros _; eexists; reflexivity); try reflexivity.
      intros _. split; [exact E|]. now left.
Qed.

(** X8. The earlier [loadDemo] always resolves after one request, the demo
    request.  With a parsed body the text area gets the response's [raw_text]
    and the error slot is null; otherwise the only change is the error
    message, so the text typed before is kept. *)
Theorem earlier_loadDemo_outcomes (w : World) :
  let demo := net w (length (log w)) GET_emails_demo in
  let r := invoke Earlier.loadDemo w in
  fst r = Normal tt
  /\ issued w (snd r) = [(GET_emails_demo, demo)]
  /\ timers (snd r) = timers w
  /\ ui (snd r)
     = match demo with
       | Responded {| body := Some data |} =>
           with_rawText (Data.raw_text data) (with_error None (ui w))
       | _ => with_error (Some (js "Failed to load demo emails.")) (ui w)
       end.
Proof.
  unfold Earlier.loadDemo, invoke. run_handler.
  case_net; (split; [reflexivity|]); (split; [issued_now; reflexivity|]);
    split; reflexivity.
Qed.

(** X9. The later [loadDemo] always resolves, and asks the service to clear
    the outbox before anything else.  If that request is rejected or not OK,
    the demo text is not requested and only the error message changes.  If it
    is OK, the local mirror is emptied and the demo request follows: with a
    parsed body the text area gets its [raw_text]; without one the text is
    kept and the error message set, the mirror staying empty. *)
Theorem later_loadDemo_outcomes (w : World) :
  let n := length (log w) in
  let clear := net w n POST_emails_sent_clear in
  let demo := net w (S n) GET_emails_demo in
  let r := invoke Later.loadDemo w in
  fst r = Normal tt
  /\ timers (snd r) = timers w
  /\ match clear with
     | Responded {| ok := true |} =>
         issued w (snd r) = [(POST_emails_sent_clear, clear); (GET_emails_demo, demo)]
         /\ ui (snd r)
            = match demo with
              | Responded {| body := Some data |} =>
                  with_rawText (Data.raw_text data)
                    (with_sentLog [] (with_error None (ui w)))
              | _ =>
                  with_error (Some (js "Failed to load demo emails."))
                    (with_sentLog [] (ui w))
              end
     | _ =>
         issued w (snd r) = [(POST_emails_sent_clear, clear)]
         /\ ui (snd r)
            = with_error (Some (js "Failed to load demo emails.")) (ui w)
     end.
Proof.
  unfold Later.loadDemo, invoke. run_handler.
  destruct (net w (length (log w)) POST_emails_sent_clear)
    as [[[|] b]|] eqn:Eclear; simpl.
  - rewrite length_app, Nat.add_comm. simpl.
    case_net; (split; [reflexivity|]); (split; [reflexivity|]);
      (split; [issued_now; reflexivity | reflexivity]).
  - split; [reflexivity|]. split; [reflexivity|].
    split; [issued_now; reflexivity | reflexivity].
  - split; [reflexivity|]. split; [reflexivity|].
    split; [issued_now; reflexivity | reflexivity].
Qed.

(** X10. [loadSentLog] always resolves after one request with its loading
    flag false.  With a parsed body, whatever the status, the mirror becomes
    the response's [items] (empty when the field is missing) and the panel
    opens; otherwise the mirror and the panel are left as they were and the
    error message is set. *)
Theorem loadSentLog_outcomes (w : World) :
  let sent := net w (length (log w)) GET_emails_sent in
  let r := invoke loadSentLog w in
  fst r = Normal tt
  /\ issued w (snd r) = [(GET_emails_sent, sent)]
  /\ timers (snd r) = timers w
  /\ ui (snd r)
     = match sent with
       | Responded {| body := Some data |} =>
           with_sentLogLoading false
             (with_sentLogOpen true
                (with_sentLog (nullish (Data.items data) [])
                   (with_error None (ui w))))
       | _ =>
           with_sentLogLoading false
             (with_error (Some (js "Failed to load sent log.")) (ui w))
       end.
Proof.
  unfold loadSentLog, invoke. run_handler.
  case_net; (split; [reflexivity|]); (split; [issued_now; reflexivity|]);
    split; reflexivity.
Qed.

(** X11. [clearSentLog] always resolves after one clear request, sent whether
    or not the mirror holds anything, with the panel closed and its loading
    flag false.  The mirror is emptied exactly when the response is OK;
    otherwise it is kept and the error message is set. *)
Theorem clearSentLog_outcomes (w : World) :
  let clear := net w (length (log w)) POST_emails_sent_clear in
  let r := invoke clearSentLog w in
  fst r = Normal tt
  /\ issued w (snd r) = [(POST_emails_sent_clear, clear)]
  /\ timers (snd r) = timers w
  /\ ui (snd r)
     = match clear with
       | Responded {| ok := true |} =>
           with_sentLogLoading false
             (with_sentLog [] (with_sentLogOpen false (with_error None (ui w))))
       | _ =>
           with_sentLogLoading false
             (with_sentLogOpen false
                (with_error (Some (js "Failed to clear outbox.")) (ui w)))
       end.
Proof.
  unfold clearSentLog, invoke. run_handler.
  destruct (net w (length (log w)) POST_emails_sent_clear)
    as [[[|] b]|] eqn:Eclear; simpl;
    (split; [reflexivity|]); (split; [issued_now; reflexivity|]);
    split; reflexivity.
Qed.

(** X12. [suggestReply] sends one request, with the content, urgency and
    intent of the email it was given, and in every outcome leaves the modal
    open on that email with the approve status, the "just sent" flag and the
    shared error slot reset; the collection, the text area and the outbox
    state are untouched. *)
Theorem suggestReply_opens_modal (w : World) (email : EmailItem.t) :
  let r := invoke (fun c => suggestReply c email) w in
  issued w (snd r)
  = [(POST_emails_reply_suggest (EmailItem.content email)
        (EmailItem.urgency email) (EmailItem.intent email),
      net w (length (log w))
        (POST_emails_reply_suggest (EmailItem.content email)
           (EmailItem.urgency email) (EmailItem.intent email)))]
  /\ timers (snd r) = timers w
  /\ ui (snd r)
     = with_modalLoading false
         (with_modalDraft (modalDraft (ui (snd r)))
            (with_error None
               (with_modalEmailId (Some (EmailItem.id email))
                  (with_sentJustNow false
                     (with_approveStatus None
                        (with_modalOpen true (ui w))))))).
Proof.
  unfold suggestReply, invoke. run_handler. case_net;
    try match goal with
      | d : Data.t |- _ => destruct (truthy (Data.draft d)); simpl
      end;
    (split; [issued_now; reflexivity|]); split; reflexivity.
Qed.

Lemma intent_of_cases (es : list EmailItem.t) (id : Z) :
  intent_of es id = js "default"
  \/ exists e, In e es /\ EmailItem.id e = id
               /\ EmailItem.intent e = Some (intent_of es id).
Proof.
  unfold intent_of.
  destruct (find (fun e => Z.eqb (EmailItem.id e) id) es) as [e|] eqn:E;
    [|now left].
  apply find_some in E as [Hin Hid]. apply Z.eqb_eq in Hid.
  destruct (EmailItem.intent e) as [i|] eqn:Ei; simpl; [|now left].
  right. exists e. now rewrite Ei.
Qed.

Lemma approve_issued (w : World) (id : Z) :
  modalEmailId (ui w) = Some id ->
  let req :=
    POST_emails_reply_approve id (intent_of (emails (ui w)) id)
      (modalDraft (ui w)) in
  let n := length (log w) in
  issued w (snd (invoke Earlier.approveAndSend w)) = [(req, net w n req)]
  /\ issued w (snd (invoke Later.approveAndSend w))
     = (req, net w n req)
       :: (if sentLogOpen (ui w) && negb (fetch_failed (net w n req))
           then [(GET_emails_sent, net w (S n) GET_emails_sent)] else []).
Proof.
  intros Hid. split.
  - unfold Earlier.approveAndSend, invoke. rewrite Hid. run_handler.
    case_net; issued_now; reflexivity.
  - unfold Later.approveAndSend, invoke. rewrite Hid. run_handler.
    destruct (net w (length (log w))
                (POST_emails_reply_approve id (intent_of (emails (ui w)) id)
                   (modalDraft (ui w)))) as [[o [d|]]|] eqn:Enet; simpl;
      try (rewrite andb_false_r; issued_now; reflexivity).
    rewrite andb_true_r.
    destruct (sentLogOpen (ui w)); simpl; [|issued_now; reflexivity].
    unfold loadSentLog. run_handler. rewrite length_app, Nat.add_comm. simpl.
    case_net; issued_now; reflexivity.
Qed.

(** X13. With a target recorded, [approveAndSend] first sends the approve
    request for that id with the draft as edited; the intent it sends is the
    literal "default" or the intent of an email of the collection with that
    id.  The earlier revision sends nothing else.  The later one then fetches
    the outbox, exactly when the panel was open and the approval did not
    fail. *)
Theorem approveAndSend_requests (w : World) (id : Z) :
  modalEmailId (ui w) = Some id ->
  let intent := intent_of (emails (ui w)) id in
  let req := POST_emails_reply_approve id intent (modalDraft (ui w)) in
  let n := length (log w) in
  (intent = js "default"
   \/ exists e, In e (emails (ui w)) /\ EmailItem.id e = id
                /\ EmailItem.intent e = Some intent)
  /\ issued w (snd (invoke Earlier.approveAndSend w)) = [(req, net w n req)]
  /\ issued w (snd (invoke Later.approveAndSend w))
     = (req, net w n req)
       :: (if sentLogOpen (ui w) && negb (fetch_failed (net w n req))
           then [(GET_emails_sent, net w (S n) GET_emails_sent)] else []).
Proof.
  intros Hid. split; [apply intent_of_cases|]. now apply approve_issued.
Qed.

Lemma approveAndSend_requests_witness :
  let w := world_of modal_state server_down in
  modalEmailId (ui w) = Some 7%Z
  /\ issued w (snd (invoke Later.approveAndSend w))
     = [(POST_emails_reply_approve 7 (js "incident") (js "On it."), Rejected)].
Proof.
  intros w. split; [reflexivity|].
  pose proof (approveAndSend_requests w 7%Z eq_refl) as (_ & _ & H).
  exact H.
Defined.

Lemma failure_text_not_blank :
  trim (js "Failed to get reply suggestion.")
  = js "Failed to get reply suggestion.".
Proof. vm_compute. reflexivity. Qed.

(** X14. After a failed suggestion the approve button is enabled, and
    approving sends the failure text as the draft: the message "Failed to get
    reply suggestion." sits in the draft field, is not blank, and nothing
    marks it as an error. *)
Theorem failed_suggestion_is_approvable (w : World) (email : EmailItem.t) :
  fetch_failed
    (net w (length (log w))
       (POST_emails_reply_suggest (EmailItem.content email)
          (EmailItem.urgency email) (EmailItem.intent email))) = true ->
  let w1 := snd (invoke (fun c => suggestReply c email) w) in
  approve_disabled (ui w1) = false
  /\ modalOpen (ui w1) = true
  /\ forall r,
       r = invoke Earlier.approveAndSend w1 \/ r = invoke Later.approveAndSend w1 ->
       exists res,
         hd_error (issued w1 (snd r))
         = Some (POST_emails_reply_approve (EmailItem.id email)
                   (intent_of (emails (ui w)) (EmailItem.id email))
                   (js "Failed to get reply suggestion."), res).
Proof.
  intros Hfail w1.
  assert (Hui : ui w1
                = with_modalLoading false
                    (with_modalDraft (js "Failed to get reply suggestion.")
                       (with_error None
                          (with_modalEmailId (Some (EmailItem.id email))
                             (with_sentJustNow false
                                (with_approveStatus None
                                   (with_modalOpen true (ui w)))))))).
  { subst w1. revert Hfail. unfold suggestReply, invoke. run_handler.
    case_net; intros Hfail; try discriminate; reflexivity. }
  split; [|split].
  - rewrite Hui. unfold approve_disabled.
    cbn [modalLoading modalDraft sentJustNow with_modalLoading with_modalDraft].
    rewrite failure_text_not_blank. reflexivity.
  - now rewrite Hui.
  - intros r Hr.
    pose proof (approve_issued w1 (EmailItem.id email)) as H.
    rewrite Hui in H at 1. specialize (H eq_refl).
    cbv zeta in H. destruct H as (H1 & H2).
    assert (Hd : modalDraft (ui w1) = js "Failed to get reply suggestion.")
      by now rewrite Hui.
    assert (He : emails (ui w1) = emails (ui w)) by now rewrite Hui.
    rewrite Hd, He in H1, H2.
    destruct Hr as [-> | ->]; [rewrite H1 | rewrite H2]; eexists; reflexivity.
Qed.

Lemma failed_suggestion_is_approvable_witness :
  let w := world_of modal_state server_down in
  approve_disabled
    (ui (snd (invoke (fun c => suggestReply c sample_email) w))) = false.
Proof.
  intros w.
  apply (failed_suggestion_is_approvable w sample_email eq_refl).
Defined.

(** X15. [approveAndSend] filters the live collection, not the one its
    closure captured: run from any render's snapshot with a target, a
    successful approval removes the emails with that id from the collection
    as it is at that moment, while the intent and the draft it sends are the
    snapshot's. *)
Theorem approveAndSend_updates_live_collection (c : State) (w : World)
    (id : Z) (o : bool) (data : Data.t) :
  modalEmailId c = Some id ->
  net w (length (log w))
    (POST_emails_reply_approve id (intent_of (emails c) id) (modalDraft c))
  = Responded {| ok := o; body := Some data |} ->
  forall r,
    r = Earlier.approveAndSend c w \/ r = Later.approveAndSend c w ->
    emails (ui (snd r))
    = filter (fun e => negb (Z.eqb (EmailItem.id e) id)) (emails (ui w))
    /\ hd_error (issued w (snd r))
       = Some (POST_emails_reply_approve id (intent_of (emails c) id)
                 (modalDraft c),
               Responded {| ok := o; body := Some data |}).
Proof.
  intros Hid Hnet r [-> | ->].
  - unfold Earlier.approveAndSend. rewrite Hid. run_handler. rewrite Hnet. simpl.
    split; [reflexivity|]. issued_now. reflexivity.
  - unfold Later.approveAndSend. rewrite Hid. run_handler. rewrite Hnet. simpl.
    destruct (sentLogOpen c); simpl.
    + unfold loadSentLog. run_handler. case_net;
        (split; [reflexivity|]); issued_now; reflexivity.
    + split; [reflexivity|]. issued_now. reflexivity.
Qed.

Lemma approveAndSend_updates_live_collection_witness :
  emails (ui (snd (Earlier.approveAndSend modal_state
                     (world_of (with_emails [sample_email] modal_state)
                        (server_ok (reply_data None None))))))
  = [].
Proof.
  apply (approveAndSend_updates_live_collection modal_state
           (world_of (with_emails [sample_email] modal_state)
              (server_ok (reply_data None None)))
           7%Z true (reply_data None None) eq_refl eq_refl _
           (or_introl eq_refl)).
Defined.

(** X16. The handlers whose every statement after the opening setters sits
    inside a [try] with a [catch] never reject: both [loadDemo],
    [loadSentLog], [clearSentLog], [suggestReply] and both [approveAndSend]
    resolve from whatever snapshot they run, whether the service answers,
    answers with an error status, answers with an unparsable body, or is
    unreachable.  ([analyzeEmails] and [cleanFormatting] are not among them:
    they read the text before any [try].) *)
Theorem guarded_handlers_always_resolve (c : State) (w : World) :
  Forall (fun h : State -> M unit => fst (h c w) = Normal tt)
    [Earlier.loadDemo; Later.loadDemo; loadSentLog; clearSentLog;
     Earlier.approveAndSend; Later.approveAndSend]
  /\ forall email, fst (suggestReply c email w) = Normal tt.
Proof.
  split; [repeat constructor|].
  - unfold Earlier.loadDemo. run_handler. case_net; reflexivity.
  - unfold Later.loadDemo. run_handler. case_net;
      repeat match goal with
        | |- context [if negb ?b then _ else _] => destruct b; simpl
        end; case_net; reflexivity.
  - unfold loadSentLog. run_handler. case_net; reflexivity.
  - unfold clearSentLog. run_handler. case_net;
      repeat match goal with
        | |- context [if negb ?b then _ else _] => destruct b; simpl
        end; reflexivity.
  - unfold Earlier.approveAndSend. destruct (modalEmailId c); [|reflexivity].
    run_handler. case_net; reflexivity.
  - unfold Later.approveAndSend. destruct (modalEmailId c); [|reflexivity].
    run_handler. case_net; try reflexivity.
    destruct (sentLogOpen c); simpl; [|reflexivity].
    unfold loadSentLog. run_handler. case_net; reflexivity.
  - intros email. unfold suggestReply. run_handler. case_net; try reflexivity.
    match goal with
    | d : Data.t |- _ => destruct (truthy (Data.draft d)); reflexivity
    end.
Qed.

(** ** Sessions *)

Ltac unfold_step :=
  unfold step, fire, invoke, Earlier.loadDemo, Later.loadDemo,
    Earlier.analyzeEmails, Later.analyzeEmails, Earlier.approveAndSend,
    Later.approveAndSend, loadSentLog, clearSentLog, suggestReply,
    cleanFormatting;
  run_handler.

Ltac branch :=
  repeat (progress case_net
          || match goal with
             | |- context [match trim ?x with _ => _ end] =>
                 destruct (trim x) eqn:?; simpl
             | |- context [match modalEmailId ?x with _ => _ end] =>
                 destruct (modalEmailId x) eqn:?; simpl
             | |- context [if ?b then _ else _] => destruct b eqn:?; simpl
             end).

Lemma fire_timer n w :
  timers_ok w -> n < length (timers w) ->
  ui (fire n w) = with_modalOpen false (ui w)
  /\ log (fire n w) = log w /\ net (fire n w) = net w
  /\ timers (fire n w) = firstn n (timers w) ++ skipn (S n) (timers w).
Proof.
  intros Hok Hn. unfold fire.
  destruct (nth_error (timers w) n) as [[d cb]|] eqn:E.
  - apply nth_error_In in E. unfold timers_ok in Hok.
    rewrite Forall_forall in Hok. apply Hok in E. injection E as -> ->.
    repeat split.
  - apply nth_error_None in E. lia.
Qed.

Lemma step_timers_ok rev w ev :
  timers_ok w -> offered rev w ev -> timers_ok (step rev w ev).
Proof.
  intros Hok Hoff. unfold timers_ok in *.
  destruct ev; try (destruct rev; unfold_step; branch; simpl;
                    rewrite ?Forall_app; repeat split; auto; fail).
  simpl in Hoff. simpl. destruct (fire_timer n w Hok Hoff) as (_ & _ & _ & ->).
  apply Forall_app. split.
  - rewrite <- (firstn_skipn n (timers w)) in Hok.
    now apply Forall_app in Hok.
  - rewrite <- (firstn_skipn (S n) (timers w)) in Hok.
    now apply Forall_app in Hok.
Qed.

Lemma steps_timers_ok rev w w' :
  steps rev w w' -> timers_ok w -> timers_ok w'.
Proof.
  induction 1 as [|w w' ev _ IH Hoff]; intros Hok; [exact Hok|].
  now apply step_timers_ok; [apply IH|].
Qed.

Lemma reachable_timers_ok rev w : reachable rev w -> timers_ok w.
Proof.
  intros [srv H]. apply (steps_timers_ok rev _ _ H). constructor.
Qed.

Lemma steps_trans rev w1 w2 w3 :
  steps rev w1 w2 -> steps rev w2 w3 -> steps rev w1 w3.
Proof.
  intros H12 H23. induction H23 as [|w2 w3 ev _ IH Hoff]; [exact H12|].
  apply steps_next; [now apply IH | exact Hoff].
Qed.

(** Invariants of a session: induction on the events since [w0]. *)
Lemma steps_invariant rev (P : World -> Prop) w0 :
  P w0 ->
  (forall w ev, steps rev w0 w -> P w -> offered rev w ev -> P (step rev w ev)) ->
  forall w, steps rev w0 w -> P w.
Proof.
  intros H0 Hstep w H. remember w0 as w1 eqn:E.
  induction H as [|w1 w ev Hs IH Hoff]; [now subst|].
  subst w1. apply Hstep; [exact Hs | now apply IH | exact Hoff].
Qed.

Lemma step_flags rev w ev :
  timers_ok w -> offered rev w ev ->
  sentLogLoading (ui w) = false -> modalLoading (ui w) = false ->
  sentLogLoading (ui (step rev w ev)) = false
  /\ modalLoading (ui (step rev w ev)) = false.
Proof.
  intros Hok Hoff H1 H2.
  destruct ev; try (destruct rev; unfold_step; branch; auto; fail).
  simpl in Hoff. simpl. destruct (fire_timer n w Hok Hoff) as (-> & _). auto.
Qed.

Lemma step_loading rev w ev :
  timers_ok w -> offered rev w ev -> ev <> ClickAnalyze ->
  loading (ui (step rev w ev)) = loading (ui w).
Proof.
  intros Hok Hoff Hne.
  destruct ev; try congruence;
    try (destruct rev; unfold_step; branch; auto; fail).
  simpl in Hoff. simpl. now destruct (fire_timer n w Hok Hoff) as (-> & _).
Qed.

Lemma earlier_analyze_loading w :
  loading (ui w) = false -> loading (ui (step earlier w ClickAnalyze)) = false.
Proof. intros H. unfold_step. branch; auto. Qed.

(** X17. At rest, the outbox and modal loading flags are false in every
    state a session can reach, in both revisions; in the earlier revision so
    is the loading flag of the analysis, so its Analyze button is never left
    disabled. *)
Theorem flags_clear_at_rest (rev : Revision) (w : World) :
  reachable rev w ->
  sentLogLoading (ui w) = false /\ modalLoading (ui w) = false
  /\ (rev = earlier -> loading (ui w) = false).
Proof.
  intros [srv H]. revert w H. apply steps_invariant.
  - repeat split.
  - intros w ev Hs (H1 & H2 & H3) Hoff.
    pose proof (steps_timers_ok rev _ _ Hs (Forall_nil _)) as Hok.
    destruct (step_flags rev w ev Hok Hoff H1 H2) as [H1' H2'].
    split; [exact H1'|]. split; [exact H2'|].
    intros ->. specialize (H3 eq_refl).
    destruct ev; try (rewrite step_loading; [exact H3 | exact Hok | exact Hoff
                                            | discriminate]).
    now apply earlier_analyze_loading.
Qed.

Lemma flags_clear_at_rest_witness :
  sentLogLoading
    (ui (step earlier (world_of initial_state server_down) ClickOutbox)) = false.
Proof.
  apply (flags_clear_at_rest earlier).
  exists server_down. apply steps_next; [apply steps_refl | reflexivity].
Defined.

(** X18. In the later revision a session can reach a state with the loading
    flag true at rest (paste a text and press Analyze while the service is
    unreachable); and from any such state the flag stays true, and the
    Analyze button disabled, whatever happens next. *)
Theorem later_loading_stays_stuck :
  (exists w, reachable later w /\ loading (ui w) = true)
  /\ (forall w w',
        reachable later w -> steps later w w' -> loading (ui w) = true ->
        loading (ui w') = true /\ ~ offered later w' ClickAnalyze).
Proof.
  split.
  - exists (step later
              (step later (world_of initial_state server_down)
                 (ChangeRawText (js "hello")))
              ClickAnalyze).
    split; [|vm_compute; reflexivity].
    exists server_down.
    apply steps_next; [apply steps_next; [apply steps_refl | exact I]|].
    reflexivity.
  - intros w w' Hreach Hsteps Hload.
    assert (H : loading (ui w') = true).
    { pose proof (reachable_timers_ok later w Hreach) as Hok.
      revert w' Hsteps. apply steps_invariant; [exact Hload|].
      intros w1 ev Hs IH Hoff.
      pose proof (steps_timers_ok later _ _ Hs Hok) as Hok'.
      rewrite step_loading; [exact IH | exact Hok' | exact Hoff|].
      intros ->. simpl in Hoff. congruence. }
    split; [exact H|]. simpl. congruence.
Qed.

Lemma step_modal_target rev w ev :
  timers_ok w -> offered rev w ev ->
  (modalOpen (ui w) = true -> modalEmailId (ui w) <> None) ->
  modalOpen (ui (step rev w ev)) = true ->
  modalEmailId (ui (step rev w ev)) <> None.
Proof.
  intros Hok Hoff Hinv.
  destruct ev;
    try (destruct rev; unfold_step; branch;
         first [ solve [auto]
               | solve [intros; discriminate]
               | solve [intros Hopen; try apply Hinv in Hopen; congruence] ]).
  simpl in Hoff. simpl. destruct (fire_timer n w Hok Hoff) as (-> & _).
  simpl. discriminate.
Qed.

(** X19. Whenever the modal is open in a session, a target email id is
    recorded; so the approve button is only ever pressed with a target, and
    the null guard at the head of [approveAndSend] never fires from the
    page. *)
Theorem open_modal_has_target (rev : Revision) (w : World) :
  reachable rev w ->
  (modalOpen (ui w) = true -> modalEmailId (ui w) <> None)
  /\ (offered rev w ClickApprove -> exists id, modalEmailId (ui w) = Some id).
Proof.
  intros [srv H].
  assert (Hinv : modalOpen (ui w) = true -> modalEmailId (ui w) <> None).
  { revert w H.
    apply (steps_invariant rev
             (fun w => modalOpen (ui w) = true -> modalEmailId (ui w) <> None));
      [discriminate|].
    intros w ev Hs IH Hoff.
    pose proof (steps_timers_ok rev _ _ Hs (Forall_nil _)) as Hok.
    now apply step_modal_target. }
  split; [exact Hinv|].
  intros [Hopen _]. destruct (modalEmailId (ui w)) as [id|] eqn:E.
  - now exists id.
  - now apply Hinv in Hopen.
Qed.

Lemma open_modal_has_target_witness :
  let srv := server_ok (analysis_data [sample_email]) in
  let w := step earlier
             (step earlier
                (step earlier (world_of initial_state srv)
                   (ChangeRawText (js "hello")))
                ClickAnalyze)
             (ClickSuggestReply sample_email) in
  offered earlier w ClickApprove
  /\ exists id, modalEmailId (ui w) = Some id.
Proof.
  intros srv w.
  assert (Hoff : offered earlier w ClickApprove) by (vm_compute; auto).
  split; [exact Hoff|].
  apply (open_modal_has_target earlier w); [|exact Hoff].
  exists srv.
  apply steps_next;
    [apply steps_next; [apply steps_next; [apply steps_refl | exact I]|]|].
  - reflexivity.
  - vm_compute. auto.
Defined.

Lemma step_log_grows rev w ev : exists l, log (step rev w ev) = log w ++ l.
Proof.
  destruct ev;
    try (destruct rev; unfold_step; branch; rewrite <- ?app_assoc;
         first [ now eexists | now exists []; rewrite app_nil_r ]).
  unfold step, fire. destruct (nth_error (timers w) n) as [[d cb]|];
    exists []; now rewrite app_nil_r.
Qed.

(** An email of the collection came in a parsed body of an analyze request
    of the log; an item of the outbox mirror, in one of an outbox request. *)
Lemma step_provenance rev w ev :
  timers_ok w -> offered rev w ev ->
  (forall e, In e (emails (ui (step rev w ev))) ->
     In e (emails (ui w))
     \/ exists raw o d,
          In (POST_emails_analyze raw, Responded {| ok := o; body := Some d |})
            (log (step rev w ev))
          /\ In e (Data.emails d))
  /\ (forall i, In i (sentLog (ui (step rev w ev))) ->
        In i (sentLog (ui w))
        \/ exists o d items,
             In (GET_emails_sent, Responded {| ok := o; body := Some d |})
               (log (step rev w ev))
             /\ Data.items d = Some items /\ In i items).
Proof.
  intros Hok Hoff.
  destruct ev;
    try (destruct rev; unfold_step; branch;
         (split; [intros e He | intros i Hi]);
         try (apply filter_In in He as [He _]);
         first [ now left
               | contradiction
               | right; eexists _, _, _; split;
                 [rewrite !in_app_iff; simpl; now auto 6 | exact He]
               | match goal with
                 | d : Data.t |- _ =>
                     destruct (Data.items d) as [items|] eqn:Eitems;
                     simpl in Hi; [|contradiction];
                     right; eexists _, _, _;
                     (split; [|split; [exact Eitems | exact Hi]]);
                     rewrite !in_app_iff; simpl; now auto 6
                 end ]).
  simpl in Hoff. simpl. destruct (fire_timer n w Hok Hoff) as (-> & _).
  split; intros x Hx; now left.
Qed.

Lemma session_provenance (rev : Revision) (w : World) :
  reachable rev w ->
  (forall e, In e (emails (ui w)) ->
     exists raw o d,
       In (POST_emails_analyze raw, Responded {| ok := o; body := Some d |})
         (log w)
       /\ In e (Data.emails d))
  /\ (forall i, In i (sentLog (ui w)) ->
        exists o d items,
          In (GET_emails_sent, Responded {| ok := o; body := Some d |}) (log w)
          /\ Data.items d = Some items /\ In i items).
Proof.
  intros [srv H]. revert w H. apply steps_invariant.
  - split; intros x Hx; destruct Hx.
  - intros w ev Hs [IH1 IH2] Hoff.
    pose proof (steps_timers_ok rev _ _ Hs (Forall_nil _)) as Hok.
    destruct (step_provenance rev w ev Hok Hoff) as [H1 H2].
    destruct (step_log_grows rev w ev) as [l Hl].
    split.
    + intros e He. destruct (H1 e He) as [Hold|Hnew]; [|exact Hnew].
      destruct (IH1 e Hold) as (raw & o & d & Hin & Hd).
      exists raw, o, d. split; [|exact Hd]. rewrite Hl. apply in_or_app. now left.
    + intros i Hi. destruct (H2 i Hi) as [Hold|Hnew]; [|exact Hnew].
      destruct (IH2 i Hold) as (o & d & items & Hin & Hd).
      exists o, d, items. split; [|exact Hd]. rewrite Hl. apply in_or_app.
      now left.
Qed.

(** X20. Throughout a session, in both revisions, every email of the
    collection was delivered by the service in the parsed body of an analyze
    request of the log, and every item of the outbox mirror in the parsed body
    of an outbox request: the page shows nothing of its own making. *)
Theorem mirrors_hold_service_data (rev : Revision) (w : World) :
  reachable rev w ->
  (forall e, In e (emails (ui w)) ->
     exists raw o d,
       In (POST_emails_analyze raw, Responded {| ok := o; body := Some d |})
         (log w)
       /\ In e (Data.emails d))
  /\ (forall i, In i (sentLog (ui w)) ->
        exists o d items,
          In (GET_emails_sent, Responded {| ok := o; body := Some d |}) (log w)
          /\ Data.items d = Some items /\ In i items).
Proof. apply session_provenance. Qed.

Lemma mirrors_hold_service_data_witness :
  let srv := server_ok (analysis_data [sample_email]) in
  let w := step earlier
             (step earlier (world_of initial_state srv)
                (ChangeRawText (js "hello")))
             ClickAnalyze in
  emails (ui w) = [sample_email]
  /\ exists raw o d,
       In (POST_emails_analyze raw, Responded {| ok := o; body := Some d |})
         (log w)
       /\ In sample_email (Data.emails d).
Proof.
  intros srv w. split; [reflexivity|].
  apply (mirrors_hold_service_data earlier w).
  - exists srv.
    apply steps_next; [apply steps_next; [apply steps_refl | exact I]|].
    reflexivity.
  - vm_compute. auto.
Defined.

(** X21. Every timer pending in a session is the one [approveAndSend] set,
    and when it fires it sets the modal closed and changes nothing else:
    not the target id, not the draft, not the "just sent" flag. *)
Theorem timers_only_close_modal (rev : Revision) (w : World) (n : nat) :
  reachable rev w ->
  offered rev w (TimerFires n) ->
  nth_error (timers w) n = Some (800%N, with_modalOpen false)
  /\ ui (step rev w (TimerFires n)) = with_modalOpen false (ui w)
  /\ log (step rev w (TimerFires n)) = log w
  /\ length (timers (step rev w (TimerFires n))) + 1 = length (timers w).
Proof.
  intros Hreach Hoff. simpl in Hoff.
  pose proof (reachable_timers_ok rev w Hreach) as Hok.
  destruct (fire_timer n w Hok Hoff) as (Hui & Hlog & _ & Htimers).
  split; [|split; [exact Hui | split; [exact Hlog|]]].
  - destruct (nth_error (timers w) n) as [t|] eqn:E.
    + pose proof (nth_error_In _ _ E) as Hin. unfold timers_ok in Hok.
      rewrite Forall_forall in Hok. now rewrite (Hok t Hin).
    + apply nth_error_None in E. lia.
  - simpl. rewrite Htimers, length_app, length_firstn, length_skipn. lia.
Qed.

Lemma session_after_approval_reachable :
  reachable earlier session_after_approval.
Proof.
  exists session_service. unfold session_after_approval.
  apply steps_next;
    [apply steps_next;
     [apply steps_next; [apply steps_next; [apply steps_refl | exact I]|]|]|].
  - vm_compute. reflexivity.
  - vm_compute. auto.
  - vm_compute. auto.
Qed.

Lemma timers_only_close_modal_witness :
  offered earlier session_after_approval (TimerFires 0)
  /\ ui (step earlier session_after_approval (TimerFires 0))
     = with_modalOpen false (ui session_after_approval).
Proof.
  assert (Hoff : offered earlier session_after_approval (TimerFires 0))
    by (vm_compute; auto).
  pose proof (timers_only_close_modal earlier session_after_approval 0
                session_after_approval_reachable Hoff) as (_ & H & _).
  split; [exact Hoff | exact H].
Defined.

Lemma approve_success_step rev w id o data :
  modalEmailId (ui w) = Some id ->
  net w (length (log w))
    (POST_emails_reply_approve id (intent_of (emails (ui w)) id)
       (modalDraft (ui w)))
  = Responded {| ok := o; body := Some data |} ->
  timers (step rev w ClickApprove) = timers w ++ [(800%N, with_modalOpen false)]
  /\ sentJustNow (ui (step rev w ClickApprove)) = true.
Proof.
  intros Hid Hnet. destruct rev; unfold_step; rewrite Hid; simpl;
    rewrite Hnet; simpl; [now split|].
  destruct (sentLogOpen (ui w)); simpl; [|now split]. case_net; now split.
Qed.

Lemma suggest_step rev w email :
  timers (step rev w (ClickSuggestReply email)) = timers w
  /\ modalOpen (ui (step rev w (ClickSuggestReply email))) = true
  /\ modalEmailId (ui (step rev w (ClickSuggestReply email)))
     = Some (EmailItem.id email)
  /\ sentJustNow (ui (step rev w (ClickSuggestReply email))) = false.
Proof. unfold_step. branch; repeat split. Qed.

(** X22. The timer of an approval is not cancelled by what follows: if,
    after a successful approval, a reply is suggested for another email before
    the timer fires, the timer then closes the modal that was just opened on
    that email. *)
Theorem timer_closes_reopened_modal (rev : Revision) (w : World) (id : Z)
    (o : bool) (data : Data.t) (email : EmailItem.t) :
  modalEmailId (ui w) = Some id ->
  net w (length (log w))
    (POST_emails_reply_approve id (intent_of (emails (ui w)) id)
       (modalDraft (ui w)))
  = Responded {| ok := o; body := Some data |} ->
  let w1 := step rev w ClickApprove in
  let w2 := step rev w1 (ClickSuggestReply email) in
  let n := length (timers w) in
  let w3 := step rev w2 (TimerFires n) in
  modalOpen (ui w2) = true
  /\ offered rev w2 (TimerFires n)
  /\ ui w3 = with_modalOpen false (ui w2)
  /\ modalOpen (ui w3) = false
  /\ modalEmailId (ui w3) = Some (EmailItem.id email).
Proof.
  intros Hid Hnet w1 w2 n w3.
  destruct (approve_success_step rev w id o data Hid Hnet) as [Ht1 _].
  destruct (suggest_step rev w1 email) as (Ht2 & Hopen & Htarget & _).
  fold w1 in Ht1. fold w2 in Ht2, Hopen, Htarget.
  assert (Hnth : nth_error (timers w2) n = Some (800%N, with_modalOpen false)).
  { rewrite Ht2, Ht1. unfold n. rewrite nth_error_app2, Nat.sub_diag by lia.
    reflexivity. }
  assert (Hui : ui w3 = with_modalOpen false (ui w2)).
  { unfold w3. simpl. unfold fire. now rewrite Hnth. }
  split; [exact Hopen|]. split.
  - simpl. rewrite Ht2, Ht1, length_app. simpl. unfold n. lia.
  - split; [exact Hui|]. rewrite Hui. split; [reflexivity | exact Htarget].
Qed.

Lemma timer_closes_reopened_modal_witness :
  let w := world_of modal_state (server_ok (reply_data None None)) in
  let w2 := step later (step later w ClickApprove)
              (ClickSuggestReply other_email) in
  modalOpen (ui w2) = true
  /\ modalOpen (ui (step later w2 (TimerFires 0))) = false.
Proof.
  intros w w2.
  pose proof (timer_closes_reopened_modal later w 7%Z true
                (reply_data None None) other_email eq_refl eq_refl) as H.
  cbv zeta in H. split; apply H.
Defined.

Lemma later_analyze_same_text w :
  rawText (ui w) = lastAnalyzedText (ui w) ->
  issued w (snd (invoke Later.analyzeEmails w))
  = [(POST_emails_analyze (rawText (ui w)),
      net w (length (log w)) (POST_emails_analyze (rawText (ui w))))].
Proof.
  intros E. apply jsstring_eqb_eq in E.
  unfold Later.analyzeEmails, invoke. run_handler. rewrite E. simpl.
  case_net; issued_now; reflexivity.
Qed.

Lemma later_analyze_resolved w :
  fst (invoke Later.analyzeEmails w) = Normal tt ->
  rawText (ui (snd (invoke Later.analyzeEmails w))) = rawText (ui w)
  /\ lastAnalyzedText (ui (snd (invoke Later.analyzeEmails w))) = rawText (ui w).
Proof.
  unfold Later.analyzeEmails, invoke. run_handler.
  destruct (jsstring_eqb (rawText (ui w)) (lastAnalyzedText (ui w))) eqn:E; simpl.
  - apply jsstring_eqb_eq in E. case_net; intros _; now split.
  - branch; intros H; try discriminate; now split.
Qed.

(** X23. In the later revision, pressing Analyze again on the same text
    after a run that resolved never clears the outbox a second time: the
    second run sends the analyze request and nothing else, whether or not the
    first analysis succeeded. *)
Theorem later_analyze_again_skips_clear (w : World) :
  fst (invoke Later.analyzeEmails w) = Normal tt ->
  let w1 := snd (invoke Later.analyzeEmails w) in
  issued w1 (snd (invoke Later.analyzeEmails w1))
  = [(POST_emails_analyze (rawText (ui w)),
      net w1 (length (log w1)) (POST_emails_analyze (rawText (ui w))))].
Proof.
  intros H w1. destruct (later_analyze_resolved w H) as [Hraw Hlast].
  fold w1 in Hraw, Hlast.
  rewrite later_analyze_same_text by congruence. now rewrite Hraw.
Qed.

Lemma later_analyze_again_skips_clear_witness :
  let w := world_of pasted_state (server_ok (analysis_data [sample_email])) in
  let w1 := snd (invoke Later.analyzeEmails w) in
  length (issued w w1) = 2 /\ length (issued w1 (snd (invoke Later.analyzeEmails w1))) = 1.
Proof.
  intros w w1. split; [vm_compute; reflexivity|].
  pose proof (later_analyze_again_skips_clear w eq_refl) as H.
  cbv zeta in H. unfold w1. rewrite H. reflexivity.
Defined.

Lemma step_keeps_target rev w ev :
  timers_ok w -> offered rev w ev ->
  (forall email, ev <> ClickSuggestReply email) ->
  modalEmailId (ui (step rev w ev)) = modalEmailId (ui w)
  /\ (sentJustNow (ui w) = true -> sentJustNow (ui (step rev w ev)) = true).
Proof.
  intros Hok Hoff Hne.
  destruct ev; try (now specialize (Hne email));
    try (destruct rev; unfold_step; branch; auto; fail).
  simpl in Hoff. simpl. destruct (fire_timer n w Hok Hoff) as (-> & _). auto.
Qed.

(** X24. The target of the modal is always an email the service delivered
    as urgent and with the action "suggest_reply_now": throughout a session, a
    recorded target id is the id of such an email from the parsed body of an
    analyze request of the log.  The modal is never opened from a normal or
    a low card: those carry no "Suggest reply" button. *)
Theorem modal_target_was_urgent (rev : Revision) (w : World) (id : Z) :
  reachable rev w ->
  modalEmailId (ui w) = Some id ->
  exists e raw o d,
    In (POST_emails_analyze raw, Responded {| ok := o; body := Some d |}) (log w)
    /\ In e (Data.emails d)
    /\ EmailItem.id e = id
    /\ EmailItem.urgency e = js "urgent"
    /\ reply_offered e = true.
Proof.
  intros [srv H]. revert id. revert w H.
  apply (steps_invariant rev
           (fun w => forall id, modalEmailId (ui w) = Some id ->
              exists e raw o d,
                In (POST_emails_analyze raw,
                    Responded {| ok := o; body := Some d |}) (log w)
                /\ In e (Data.emails d) /\ EmailItem.id e = id
                /\ EmailItem.urgency e = js "urgent"
                /\ reply_offered e = true)); [discriminate|].
  intros w ev Hs IH Hoff id Hid.
  pose proof (steps_timers_ok rev _ _ Hs (Forall_nil _)) as Hok.
  destruct (step_log_grows rev w ev) as [l Hl].
  assert (Hold : (forall email, ev <> ClickSuggestReply email) ->
                 exists e raw o d,
                   In (POST_emails_analyze raw,
                       Responded {| ok := o; body := Some d |})
                     (log (step rev w ev))
                   /\ In e (Data.emails d) /\ EmailItem.id e = id
                   /\ EmailItem.urgency e = js "urgent"
                   /\ reply_offered e = true).
  { intros Hne.
    destruct (step_keeps_target rev w ev Hok Hoff Hne) as [Hkeep _].
    rewrite Hkeep in Hid.
    destruct (IH id Hid) as (e & raw & o & d & Hin & Hrest).
    exists e, raw, o, d. split; [|exact Hrest].
    rewrite Hl. apply in_or_app. now left. }
  destruct ev; try (apply Hold; discriminate).
  destruct Hoff as [Hurgent Hoffer].
  destruct (suggest_step rev w email) as (_ & _ & Htarget & _).
  rewrite Htarget in Hid. injection Hid as <-.
  unfold urgentEmails in Hurgent. apply In_bucket in Hurgent as [Hin Hu].
  destruct (session_provenance rev w (ex_intro _ srv Hs)) as [Hprov _].
  destruct (Hprov email Hin) as (raw & o & d & Hlog & Hd).
  exists email, raw, o, d. split; [|now repeat split].
  rewrite Hl. apply in_or_app. now left.
Qed.

Lemma modal_target_was_urgent_witness :
  let srv := server_ok (analysis_data [sample_email]) in
  let w := step earlier
             (step earlier
                (step earlier (world_of initial_state srv)
                   (ChangeRawText (js "hello")))
                ClickAnalyze)
             (ClickSuggestReply sample_email) in
  modalEmailId (ui w) = Some 7%Z
  /\ exists e raw o d,
       In (POST_emails_analyze raw, Responded {| ok := o; body := Some d |})
         (log w)
       /\ In e (Data.emails d) /\ EmailItem.id e = 7%Z
       /\ EmailItem.urgency e = js "urgent" /\ reply_offered e = true.
Proof.
  intros srv w. split; [reflexivity|].
  apply (modal_target_was_urgent earlier w 7%Z); [|reflexivity].
  exists srv.
  apply steps_next;
    [apply steps_next; [apply steps_next; [apply steps_refl | exact I]|]|].
  - reflexivity.
  - vm_compute. auto.
Defined.

Lemma sws_steps rev w w' : steps_without_suggest rev w w' -> steps rev w w'.
Proof.
  induction 1 as [|w w' ev _ IH Hoff _]; [apply steps_refl|].
  now apply steps_next.
Qed.

(** An event other than the approve click adds no approve request to the
    log. *)
Lemma step_adds_no_approve rev w ev :
  ev <> ClickApprove ->
  exists l, log (step rev w ev) = log w ++ l /\ Forall (fun x => ~ is_approve x) l.
Proof.
  intros Hne.
  destruct ev; try congruence;
    try (destruct rev; unfold_step; branch; rewrite <- ?app_assoc;
         first [ eexists; split; [reflexivity|];
                 repeat constructor; unfold is_approve; simpl; tauto
               | exists []; split; [now rewrite app_nil_r | constructor] ]).
  unfold step, fire. destruct (nth_error (timers w) n) as [[d cb]|];
    exists []; (split; [now rewrite app_nil_r | constructor]).
Qed.

(** X25. Once an approval has been recorded as sent (the "just sent" flag is
    set), then until the next "Suggest reply" the flag stays set, the approve
    button is not offered, and no approve request is sent, whatever else
    happens on the page: edits of the draft, closing the modal, the timer, a
    new analysis, the outbox. *)
Theorem no_approve_after_sent (rev : Revision) (w w' : World) :
  reachable rev w ->
  sentJustNow (ui w) = true ->
  steps_without_suggest rev w w' ->
  sentJustNow (ui w') = true
  /\ ~ offered rev w' ClickApprove
  /\ Forall (fun x => ~ is_approve x) (issued w w').
Proof.
  intros Hreach Hsent Hsteps.
  pose proof (reachable_timers_ok rev w Hreach) as Hok.
  assert (Hdis : forall s, sentJustNow s = true -> approve_disabled s = true).
  { intros s Hs. unfold approve_disabled. rewrite Hs. apply orb_true_r. }
  assert (H : sentJustNow (ui w') = true
              /\ exists l, log w' = log w ++ l
                           /\ Forall (fun x => ~ is_approve x) l).
  { induction Hsteps as [|w w' ev Hs IH Hoff Hne].
    - split; [exact Hsent|]. exists []. split; [now rewrite app_nil_r|constructor].
    - destruct (IH Hreach Hsent Hok) as (Hsent' & l & Hl & Hall).
      pose proof (steps_timers_ok rev _ _ (sws_steps rev _ _ Hs) Hok) as Hok'.
      destruct (step_keeps_target rev w' ev Hok' Hoff Hne) as [_ Hkeep].
      split; [now apply Hkeep|].
      destruct (step_adds_no_approve rev w' ev) as (l' & Hl' & Hall').
      + intros ->. destruct Hoff as [_ Hoff].
        rewrite (Hdis _ Hsent') in Hoff. discriminate.
      + exists (l ++ l'). split; [now rewrite Hl', Hl, app_assoc|].
        apply Forall_app. now split. }
  destruct H as (Hsent' & l & Hl & Hall).
  split; [exact Hsent'|]. split.
  - intros [_ Hoff]. rewrite (Hdis _ Hsent') in Hoff. discriminate.
  - unfold issued. rewrite Hl, skipn_app, skipn_all, Nat.sub_diag. exact Hall.
Qed.

Lemma no_approve_after_sent_witness :
  let w' := step earlier
              (step earlier session_after_approval (ChangeDraft (js "Again")))
              ClickAnalyze in
  sentJustNow (ui session_after_approval) = true
  /\ sentJustNow (ui w') = true
  /\ ~ offered earlier w' ClickApprove
  /\ length (issued session_after_approval w') = 1.
Proof.
  intros w'.
  assert (Hsent : sentJustNow (ui session_after_approval) = true)
    by (vm_compute; reflexivity).
  assert (Hsteps : steps_without_suggest earlier session_after_approval w').
  { apply sws_next; [apply sws_next; [apply sws_refl| |]| |];
      try discriminate; vm_compute; auto. }
  pose proof (no_approve_after_sent earlier session_after_approval w'
                session_after_approval_reachable Hsent Hsteps)
    as (H1 & H2 & _).
  split; [exact Hsent|]. split; [exact H1|]. split; [exact H2|].
  vm_compute. reflexivity.
Defined.

(** X26. Where the later revision added nothing, it behaves as the earlier
    one: [approveAndSend] of both revisions has the same outcome while the
    outbox panel is closed, and so has [analyzeEmails] on a text that is not
    blank and equals [lastAnalyzedText]. *)
Theorem revisions_agree (w : World) :
  (sentLogOpen (ui w) = false ->
   invoke Later.approveAndSend w = invoke Earlier.approveAndSend w)
  /\ (rawText (ui w) = lastAnalyzedText (ui w) ->
      trim (rawText (ui w)) <> [] ->
      invoke Later.analyzeEmails w = invoke Earlier.analyzeEmails w).
Proof.
  split.
  - intros Hclosed. unfold invoke, Later.approveAndSend, Earlier.approveAndSend.
    destruct (modalEmailId (ui w)); [|reflexivity].
    run_handler. rewrite Hclosed. case_net; reflexivity.
  - intros E Hne. apply jsstring_eqb_eq in E.
    unfold invoke, Later.analyzeEmails, Earlier.analyzeEmails.
    destruct (trim (rawText (ui w))); [congruence|].
    run_handler. rewrite E. simpl. case_net; reflexivity.
Qed.
